(** * keytrace: the Krumhansl-Schmuckler key classifier of [keyfinder.py]

    A shallow embedding of the class [Tonal_Fragment] (src/keyfinder.py) and
    the properties of its key classifier.

    Numbers are the program's own: a Python [float] / [np.float64] is an IEEE
    754 binary64 value, which is Rocq's primitive [float]; [>], [!=] and [*]
    are [ltb] (flipped), [negb eqb] and [mul].  NaN is a value of that type
    and every ordered comparison with it is false, exactly as in Python.

    The audio front end ([librosa.time_to_samples], [chroma_cqt], [np.sum]) is
    outside the classifier: the embedding starts at [chroma_vals], the twelve
    summed pitch-class energies of line 61. *)

From Stdlib Require Import ZArith List String Ascii Bool Lia Floats.
From Stdlib Require Uint63.
From Stdlib Require Import Permutation.
Import ListNotations.
Set Warnings "-inexact-float".

Open Scope string_scope.
Open Scope list_scope.

(* ================================================================== *)
(** ** Python values and built-ins used by the class *)

(** A raised exception is [None]; [x <- e ;; k] sequences fallible steps. *)
Notation "x <- e ;; k" :=
  (match e with Some x => k | None => None end)
  (at level 61, e at next level, right associativity,
   format "'[v' x  <-  e  ;;  '/' k ']'").

(** A list comprehension whose body may raise. *)
Fixpoint comprehension {A B : Type} (f : A -> option B) (l : list A)
  : option (list B) :=
  match l with
  | [] => Some []
  | a :: l' => b <- f a ;; bs <- comprehension f l' ;; Some (b :: bs)
  end.

(** [range(n)]. *)
Definition range (n : nat) : list nat := seq 0 n.

(** A [dict] with string keys keeps its items in insertion order. *)
Definition dict : Type := list (string * float).

(** [d.get(k)] and [d[k]]; [None] is the missing key. *)
Fixpoint dict_get (d : dict) (k : string) : option float :=
  match d with
  | [] => None
  | (k', v) :: d' => if String.eqb k' k then Some v else dict_get d' k
  end.

(** [k in d]. *)
Definition dict_in (k : string) (d : dict) : bool :=
  match dict_get d k with Some _ => true | None => false end.

(** [d[k] = v]: an existing key keeps its position, a new one is appended. *)
Fixpoint dict_set (d : dict) (k : string) (v : float) : dict :=
  match d with
  | [] => [(k, v)]
  | (k', v') :: d' =>
      if String.eqb k' k then (k', v) :: d' else (k', v') :: dict_set d' k v
  end.

(** [{k: v for ...}] from the items the comprehension yields, in order. *)
Definition dict_of_items (items : list (string * float)) : dict :=
  fold_left (fun d kv => dict_set d (fst kv) (snd kv)) items [].

(** [{**a, **b}]. *)
Definition dict_merge (a b : dict) : dict :=
  fold_left (fun d kv => dict_set d (fst kv) (snd kv)) b a.

(** [needle in hay] on strings. *)
Fixpoint str_in (needle hay : string) : bool :=
  String.prefix needle hay ||
  match hay with
  | EmptyString => false
  | String _ hay' => str_in needle hay'
  end.

Definition is_space (c : ascii) : bool :=
  let n := nat_of_ascii c in
  (n =? 32)%nat || ((9 <=? n)%nat && (n <=? 13)%nat).

(** [s.split()]: the maximal runs of non-blank characters. *)
Fixpoint split_from (cur : string) (s : string) : list string :=
  match s with
  | EmptyString => match cur with EmptyString => [] | _ => [cur] end
  | String c s' =>
      if is_space c
      then match cur with
           | EmptyString => split_from EmptyString s'
           | _ => cur :: split_from EmptyString s'
           end
      else split_from (cur ++ String c EmptyString)%string s'
  end.

Definition split (s : string) : list string := split_from EmptyString s.

(** [l.index(x)]; [None] is ValueError. *)
Fixpoint index (x : string) (l : list string) : option nat :=
  match l with
  | [] => None
  | y :: l' => if String.eqb y x then Some 0%nat
               else i <- index x l' ;; Some (S i)
  end.

(** Python's [a > b] and [a != b] on floats. *)
Definition gt (a b : float) : bool := (b <? a)%float.
Definition ne (a b : float) : bool := negb (a =? b)%float.

(** [max(d, key=d.get)]: the keys are scanned in the dict's order and the
    running maximum is replaced only by a strictly greater value, so the
    first key that reaches the maximum is kept.  [None] is the ValueError of
    an empty dict. *)
Definition max_step (d : dict) (acc : option (string * float)) (k : string)
  : option (string * float) :=
  best <- acc ;; v <- dict_get d k ;;
  Some (if gt v (snd best) then (k, v) else best).

Definition max_by_get (d : dict) : option string :=
  match map fst d with
  | [] => None
  | k0 :: ks =>
      v0 <- dict_get d k0 ;;
      best <- fold_left (max_step d) ks (Some (k0, v0)) ;;
      Some (fst best)
  end.

(* ================================================================== *)
(** ** The class [Tonal_Fragment] *)

Definition PITCHES : list string :=
  ["C"; "C#"; "D"; "D#"; "E"; "F"; "F#"; "G"; "G#"; "A"; "A#"; "B"].

(** Krumhansl-Schmuckler key profiles. *)
Definition MAJ_PROFILE : list float :=
  [6.35; 2.23; 3.48; 2.33; 4.38; 4.09; 2.52; 5.19; 2.39; 3.66; 2.29;
   2.88]%float.
Definition MIN_PROFILE : list float :=
  [6.33; 2.68; 3.52; 5.38; 2.60; 3.53; 2.54; 4.75; 3.98; 2.69; 3.34;
   3.17]%float.

(** The attributes of an instance that the classifier reads or writes.
    [altkey] and [altbestcorr] are [None] or a value, as in the source. *)
Record Tonal_Fragment : Type := {
  chroma_vals : list float;
  keyfreqs : dict;
  key_dict : dict;
  key : string;
  bestcorr : float;
  altkey : option string;
  altbestcorr : option float
}.

Definition set_alt (self : Tonal_Fragment) (k : string) (c : float)
  : Tonal_Fragment :=
  {| chroma_vals := chroma_vals self; keyfreqs := keyfreqs self;
     key_dict := key_dict self; key := key self; bestcorr := bestcorr self;
     altkey := Some k; altbestcorr := Some c |}.

(** The test of line 104. *)
Definition qualifies (best corr : float) : bool :=
  gt corr (best * 0.9)%float && ne corr best.

(** [_find_alternative_key]: the loop of lines 103-107 over
    [self.key_dict.items()], with its [break]. *)
Fixpoint alt_loop (items : dict) (self : Tonal_Fragment) : Tonal_Fragment :=
  match items with
  | [] => self
  | (k, corr) :: rest =>
      if qualifies (bestcorr self) corr then set_alt self k corr
      else alt_loop rest self
  end.

Definition _find_alternative_key (self : Tonal_Fragment) : Tonal_Fragment :=
  alt_loop (key_dict self) self.

(** [get_key_with_context(self, prefer_minor=False, threshold=0.9)]: the
    result and the instance after the call. *)
Definition threshold_default : float := 0.9%float.

Definition get_key_with_context (prefer_minor : bool) (threshold : float)
  (self : Tonal_Fragment) : option ((string * float) * Tonal_Fragment) :=
  let key := key self in
  let bestcorr := bestcorr self in
  if prefer_minor && str_in "major" key then
    root <- nth_error (split key) 0 ;;
    idx <- index root PITCHES ;;
    pitch <- nth_error PITCHES (Z.to_nat ((Z.of_nat idx - 3) mod 12)) ;;
    let relative_minor := (pitch ++ " minor")%string in
    if dict_in relative_minor (key_dict self) then
      minor_corr <- dict_get (key_dict self) relative_minor ;;
      if gt minor_corr (bestcorr * threshold)%float
      then Some ((relative_minor, minor_corr), self)
      else Some ((key, bestcorr), self)
    else Some ((key, bestcorr), self)
  else Some ((key, bestcorr), self).

Section Engine.

(** The two library calls of lines 86-87: [np_corrcoef x y] is
    [np.corrcoef(x, y)[1, 0]] and [round c n] is [round(c, n)] on an
    [np.float64].  The classifier is verified for every pair of functions;
    the models of the two calls follow the section. *)
Variable np_corrcoef : list float -> list float -> float.
Variable round : float -> nat -> float.

(** Line 83: [[self.keyfreqs.get(self.PITCHES[(i + m) % 12]) for m in
    range(12)]]. *)
Definition key_test (keyfreqs : dict) (i : nat) : option (list float) :=
  comprehension
    (fun m => p <- nth_error PITCHES ((i + m) mod 12) ;; dict_get keyfreqs p)
    (range 12).

(** Lines 81-90: one pass of the loop appends to both lists. *)
Definition corr_step (keyfreqs : dict)
  (acc : option (list float * list float)) (i : nat)
  : option (list float * list float) :=
  lists <- acc ;; kt <- key_test keyfreqs i ;;
  let maj_corr := round (np_corrcoef MAJ_PROFILE kt) 3 in
  let min_corr := round (np_corrcoef MIN_PROFILE kt) 3 in
  Some (fst lists ++ [maj_corr], snd lists ++ [min_corr]).

(** [_compute_key_correlations]: the new value of [self.key_dict]. *)
Definition _compute_key_correlations (keyfreqs : dict) : option dict :=
  lists <- fold_left (corr_step keyfreqs) (range 12) (Some ([], [])) ;;
  let maj_key_corrs := fst lists in
  let min_key_corrs := snd lists in
  keys_maj <- comprehension
    (fun i => p <- nth_error PITCHES i ;; Some (p ++ " major")%string) (range 12) ;;
  keys_min <- comprehension
    (fun i => p <- nth_error PITCHES i ;; Some (p ++ " minor")%string) (range 12) ;;
  let keys := keys_maj ++ keys_min in
  d_maj <- comprehension
    (fun i => k <- nth_error keys i ;; c <- nth_error maj_key_corrs i ;;
              Some (k, c)) (range 12) ;;
  d_min <- comprehension
    (fun i => k <- nth_error keys (i + 12) ;; c <- nth_error min_key_corrs i ;;
              Some (k, c)) (range 12) ;;
  Some (dict_merge (dict_of_items d_maj) (dict_of_items d_min)).

(** [__init__] from line 61 on: [chroma_vals] holds the twelve sums. *)
Definition __init__ (chroma_vals : list float) : option Tonal_Fragment :=
  items <- comprehension
    (fun i => p <- nth_error PITCHES i ;; v <- nth_error chroma_vals i ;;
              Some (p, v)) (range 12) ;;
  let keyfreqs := dict_of_items items in
  key_dict <- _compute_key_correlations keyfreqs ;;
  key <- max_by_get key_dict ;;
  bestcorr <- dict_get key_dict key ;;
  Some (_find_alternative_key
          {| chroma_vals := chroma_vals; keyfreqs := keyfreqs;
             key_dict := key_dict; key := key; bestcorr := bestcorr;
             altkey := None; altbestcorr := None |}).

End Engine.

(* ================================================================== *)
(** ** The two numpy calls *)

Module Numpy.

Open Scope float_scope.

(** The binary64 value of an integer below [2^53] in magnitude. *)
Definition float_of_Z (k : Z) : float :=
  match k with
  | Z0 => 0
  | Zpos _ => of_uint63 (Uint63.of_Z k)
  | Zneg p => - of_uint63 (Uint63.of_Z (Zpos p))
  end.

(** The sum of a row, as [np.add.reduce] and the dot product form it.  The
    source does not fix the order in which numpy and its BLAS add: numpy
    reduces a row in unrolled pairs and the product goes through the linked
    BLAS.  This model adds from left to right, starting from the first
    entry, so a coefficient can differ from numpy's in its last bits, and a
    row of equal nonzero energies need not have an exact mean here.  What
    depends on the order is stated over [corrcoef_by] below, for every order
    of additions. *)
Definition fsum (l : list float) : float :=
  match l with
  | [] => 0
  | a :: l' => fold_left add l' a
  end.

Definition mean (l : list float) : float :=
  fsum l / float_of_Z (Z.of_nat (List.length l)).

Definition center (l : list float) : list float :=
  let avg := mean l in map (fun v => v - avg) l.

Definition dot (a b : list float) : float :=
  fsum (map (fun p => fst p * snd p) (combine a b)).

(** [np.clip(c, -1, 1)]: [minimum(maximum(c, -1), 1)], NaN passing through. *)
Definition clip (c : float) : float :=
  if is_nan c then c
  else if c <? -1 then -1 else if 1 <? c then 1 else c.

(** [np.corrcoef(x, y)[1, 0]] as numpy computes it: the covariance matrix
    [c] of the two centred rows, scaled by [1 / (N - 1)]; each entry divided
    by the standard deviation of its row, then of its column; the result
    clipped to [-1, 1]. *)
Definition corrcoef (x y : list float) : float :=
  let x0 := center x in
  let x1 := center y in
  let fact := float_of_Z (Z.of_nat (List.length x) - 1) in
  let c00 := dot x0 x0 * (1 / fact) in
  let c11 := dot x1 x1 * (1 / fact) in
  let c10 := dot x1 x0 * (1 / fact) in
  clip ((c10 / sqrt c11) / sqrt c00).

(** The integer nearest to [m / d], halves going to the even one. *)
Definition round_half_even (m d : Z) : Z :=
  let q := (m / d)%Z in
  let r := (m mod d)%Z in
  match (2 * r ?= d)%Z with
  | Lt => q
  | Gt => (q + 1)%Z
  | Eq => if Z.even q then q else (q + 1)%Z
  end.

(** C's [rint] in the default rounding mode: the integral value nearest to
    [x], halves to even, keeping the sign; a value of exponent [e >= 0] is
    integral already. *)
Definition rint (x : float) : float :=
  match Prim2SF x with
  | S754_finite s m e =>
      if (0 <=? e)%Z then x
      else
        let r := float_of_Z (round_half_even (Zpos m) (2 ^ (- e))) in
        if s then - r else r
  | _ => x
  end.

(** [round(c, ndigits)] on an [np.float64] is [np.round]: multiply by
    [10 ** ndigits], [rint], divide. *)
Definition round (c : float) (ndigits : nat) : float :=
  let f := float_of_Z (10 ^ Z.of_nat ndigits) in
  rint (c * f) / f.

End Numpy.

(** The constructor with the two calls bound to their models. *)
Definition Tonal_Fragment_of (chroma_vals : list float)
  : option Tonal_Fragment :=
  __init__ Numpy.corrcoef Numpy.round chroma_vals.

(* ================================================================== *)
(** ** The coefficient for any order of the additions *)

(** [np.corrcoef] adds in two places: [np.add.reduce] gives the total of a
    row for its mean, and the product [dot(X, X.T)] gives the three entries
    of the covariance matrix.  Here both are parameters: [sum l] is the total
    of the row [l] and [dot a b] the entry of the product for the rows [a]
    and [b].  The rest is numpy's text: [X -= avg[:, None]], [c *= 1 / fact]
    with [fact = N - 1], [c /= stddev[:, None]], [c /= stddev[None, :]],
    [np.clip]. *)
Section CorrcoefBy.

Variable sum : list float -> float.
Variable dot : list float -> list float -> float.

Definition center_by (l : list float) : list float :=
  let avg := (sum l / Numpy.float_of_Z (Z.of_nat (List.length l)))%float in
  map (fun v => (v - avg)%float) l.

Definition corrcoef_by (x y : list float) : float :=
  let x0 := center_by x in
  let x1 := center_by y in
  let fact := Numpy.float_of_Z (Z.of_nat (List.length x) - 1) in
  let c00 := (dot x0 x0 * (1 / fact))%float in
  let c11 := (dot x1 x1 * (1 / fact))%float in
  let c10 := (dot x1 x0 * (1 / fact))%float in
  Numpy.clip ((c10 / sqrt c11) / sqrt c00)%float.

End CorrcoefBy.


(* ================================================================== *)
(** ** The reporting methods *)

(** [max(l)] on a list of floats: the first greatest element, by [>];
    [None] is the ValueError of an empty list. *)
Definition max_list (l : list float) : option float :=
  match l with
  | [] => None
  | x :: l' => Some (fold_left (fun best v => if gt v best then v else best)
                               l' x)
  end.

(** [print_chroma]: one row per item of [self.keyfreqs], the pitch and
    [chrom / chroma_max].  The rows are returned as data; the format
    [5.3f] of the printed text is left out. *)
Definition print_chroma (self : Tonal_Fragment)
  : option (list (string * float)) :=
  chroma_max <- max_list (chroma_vals self) ;;
  Some (map (fun item => (fst item, (snd item / chroma_max)%float))
            (keyfreqs self)).

(** Python's [<] on two [(key, corr)] tuples: the first components that
    differ (by [==]) decide; equal tuples are not less. *)
Definition tuple_lt (a b : string * float) : bool :=
  if String.eqb (fst a) (fst b)
  then if (snd a =? snd b)%float then false else (snd a <? snd b)%float
  else String.ltb (fst a) (fst b).

(** [sorted(items)]: a stable sort by [<].  Each item goes in front of the
    first item it is less than. *)
Fixpoint insert_item (x : string * float) (l : dict) : dict :=
  match l with
  | [] => [x]
  | y :: l' => if tuple_lt x y then x :: y :: l' else y :: insert_item x l'
  end.

Definition sorted (items : dict) : dict :=
  fold_left (fun acc x => insert_item x acc) items [].

(** [corr_table]: one row per item of [sorted(self.key_dict.items())]; the
    format [6.3f] of the printed text is left out. *)
Definition corr_table (self : Tonal_Fragment) : dict :=
  sorted (key_dict self).

(** The two lines [print_key] can print, with the values they show. *)
Inductive line : Type :=
  | Detected_key (key : string) (correlation : float)
  | also_possible (key : string) (correlation : option float).

(** [print_key]: the lines printed and the instance after the call. *)
Definition print_key (self : Tonal_Fragment)
  : option (list line * Tonal_Fragment) :=
  res <- get_key_with_context true threshold_default self ;;
  let key := fst (fst res) in
  let corr := snd (fst res) in
  let self := snd res in
  Some (Detected_key key corr ::
        match altkey self with
        | Some k => [also_possible k (altbestcorr self)]
        | None => []
        end, self).

(* ================================================================== *)
(** ** The front of the constructor *)

(** The bounds of [l[start:stop]] once adjusted to a length [n]: a negative
    index counts from the end, and both are clamped to [0, n]. *)
Definition adjust_index (n i : Z) : Z :=
  if (i <? 0)%Z then Z.max 0 (i + n) else Z.min i n.

(** [l[start:stop]], where [None] is an omitted bound. *)
Definition slice {A : Type} (l : list A) (start stop : option Z) : list A :=
  let n := Z.of_nat (List.length l) in
  let a := match start with None => 0%Z | Some i => adjust_index n i end in
  let b := match stop with None => n | Some i => adjust_index n i end in
  firstn (Z.to_nat (b - a)) (skipn (Z.to_nat a) l).

Section Constructor.

(** The calls into librosa and numpy of lines 48-61, and the two of
    [_compute_key_correlations]. *)
Variable time_to_samples : float -> Z -> Z.
Variable chroma_cqt : list float -> Z -> list (list float).
Variable np_sum : list float -> float.
Variable np_corrcoef : list float -> list float -> float.
Variable round : float -> nat -> float.

(** Lines 47-50: a time boundary that is not [None] becomes a sample index. *)
Definition sample_bound (t : option float) (sr : Z) : option Z :=
  match t with
  | Some t => Some (time_to_samples t sr)
  | None => None
  end.

(** Line 53: [self.waveform[self.tstart:self.tend]]. *)
Definition y_segment (waveform : list float) (sr : Z)
  (tstart tend : option float) : list float :=
  slice waveform (sample_bound tstart sr) (sample_bound tend sr).

(** Line 61: [[np.sum(self.chromograph[i]) for i in range(12)]]; a missing
    row is an IndexError. *)
Definition sum_rows (chromograph : list (list float)) : option (list float) :=
  comprehension
    (fun i => row <- nth_error chromograph i ;; Some (np_sum row)) (range 12).

(** [Tonal_Fragment(waveform, sr, tstart, tend)]: lines 41-61, then the
    rest of [__init__]. *)
Definition Tonal_Fragment_new (waveform : list float) (sr : Z)
  (tstart tend : option float) : option Tonal_Fragment :=
  let segment := y_segment waveform sr tstart tend in
  let chromograph := chroma_cqt segment sr in
  chroma_vals <- sum_rows chromograph ;;
  __init__ np_corrcoef round chroma_vals.

End Constructor.

(* ================================================================== *)
(** ** The words of the specification *)

Inductive mode : Type := major | minor.

(** The label of a candidate: ["<PitchName> major"] / ["<PitchName> minor"]. *)
Definition candidate_name (root : nat) (m : mode) : string :=
  (nth root PITCHES "" ++
   match m with major => " major" | minor => " minor" end)%string.

(** The fixed enumeration order of the CandidateList: major candidates for
    roots 0..11, then minor candidates for roots 0..11. *)
Definition candidate_names : list string :=
  map (fun r => candidate_name r major) (range 12) ++
  map (fun r => candidate_name r minor) (range 12).

(** Section 4.2, step 1: [rotated[m] = chroma[(r + m) mod 12]], [m] in 0..11. *)
Definition rotated (chroma : list float) (r : nat) : list float :=
  map (fun m => nth ((r + m) mod 12) chroma 0%float) (range 12).

(** The root of the relative minor: [(primaryRoot - 3) mod 12]. *)
Definition relative_minor_root (r : nat) : nat :=
  Z.to_nat ((Z.of_nat r - 3) mod 12).

(** The pitch classes of the C major scale, one unit each. *)
Definition c_major_scale : list float :=
  [1; 0; 1; 0; 1; 1; 0; 1; 0; 1; 0; 1]%float.

(** Two alternating energies: the odd roots tie. *)
Definition alternating : list float :=
  [1; 2; 1; 2; 1; 2; 1; 2; 1; 2; 1; 2]%float.

Definition all_zero : list float := repeat 0%float 12.

(** The claim C1 as the specification words it: an input with a NaN
    coefficient makes the constructor fail or yields a key that is none of
    the 24 labels. *)
Definition nan_is_reported (chroma : list float) : Prop :=
  match Tonal_Fragment_of chroma with
  | None => True
  | Some tf =>
      (exists k c, In (k, c) (key_dict tf) /\ is_nan c = true) ->
      ~ In (key tf) candidate_names
  end.

(* ================================================================== *)
(** ** The definitions on small inputs *)

Example candidate_names_in_order :
  candidate_names =
  ["C major"; "C# major"; "D major"; "D# major"; "E major"; "F major";
   "F# major"; "G major"; "G# major"; "A major"; "A# major"; "B major";
   "C minor"; "C# minor"; "D minor"; "D# minor"; "E minor"; "F minor";
   "F# minor"; "G minor"; "G# minor"; "A minor"; "A# minor"; "B minor"].
Proof. reflexivity. Qed.

Example split_key : split "C# major" = ["C#"; "major"].
Proof. reflexivity. Qed.

Example major_in_key :
  str_in "major" "C# major" = true /\ str_in "major" "A minor" = false.
Proof. split; reflexivity. Qed.

Example index_of_pitch : index "A" PITCHES = Some 9%nat.
Proof. reflexivity. Qed.

Example relative_minor_of_C : relative_minor_root 0 = 9%nat.
Proof. reflexivity. Qed.

Example dict_set_keeps_position :
  dict_set [("C", 1%float); ("D", 2%float)] "C" 3%float =
  [("C", 3%float); ("D", 2%float)].
Proof. reflexivity. Qed.

Example max_keeps_first_of_a_tie :
  max_by_get [("a", 1%float); ("b", 2%float); ("c", 2%float)] = Some "b".
Proof. reflexivity. Qed.

Example max_keeps_a_leading_nan :
  max_by_get [("a", nan); ("b", 2%float)] = Some "a".
Proof. reflexivity. Qed.

Example round_half_to_even :
  Numpy.round 0.0015%float 3 = 0.002%float /\
  Numpy.round 0.0005%float 3 = 0%float /\
  Numpy.round 0.12345%float 3 = 0.123%float.
Proof. repeat split; reflexivity. Qed.

Example rotated_from_G :
  rotated [0; 1; 2; 3; 4; 5; 6; 7; 8; 9; 10; 11]%float 7 =
  [7; 8; 9; 10; 11; 0; 1; 2; 3; 4; 5; 6]%float.
Proof. reflexivity. Qed.

(** The relative-minor example of the specification: primary "C major" at
    0.850 with "A minor" at 0.800, then at 0.700. *)
Definition estimate_with_A_minor (c : float) : Tonal_Fragment :=
  {| chroma_vals := []; keyfreqs := [];
     key_dict := combine candidate_names
       [0.85; 0; 0; 0; 0; 0; 0; 0; 0; 0; 0; 0;
        0; 0; 0; 0; 0; 0; 0; 0; 0; c; 0; 0]%float;
     key := "C major"; bestcorr := 0.85%float;
     altkey := None; altbestcorr := None |}.

Example prefer_minor_close :
  get_key_with_context true threshold_default (estimate_with_A_minor 0.8) =
  Some (("A minor", 0.8%float), estimate_with_A_minor 0.8).
Proof. reflexivity. Qed.

Example prefer_minor_far :
  get_key_with_context true threshold_default (estimate_with_A_minor 0.7) =
  Some (("C major", 0.85%float), estimate_with_A_minor 0.7).
Proof. reflexivity. Qed.

(* ================================================================== *)
(** ** Ordered comparison of binary64 values *)

Module FloatOrder.

Definition le_cmp (c : comparison) : bool :=
  match c with Gt => false | _ => true end.

(** [fcmp x y] is the IEEE comparison: [None] when an operand is NaN. *)
Definition fcmp (x y : float) : option comparison :=
  SFcompare (Prim2SF x) (Prim2SF y).

Ltac cmp_cases :=
  repeat match goal with
  | |- context [Z.compare ?a ?b] => destruct (Z.compare_spec a b)
  | H : context [Z.compare ?a ?b] |- _ => destruct (Z.compare_spec a b)
  | |- context [Pos.compare_cont Eq ?a ?b] =>
      change (Pos.compare_cont Eq a b) with (Pos.compare a b);
      destruct (Pos.compare_spec a b)
  | H : context [Pos.compare_cont Eq ?a ?b] |- _ =>
      change (Pos.compare_cont Eq a b) with (Pos.compare a b) in H;
      destruct (Pos.compare_spec a b)
  end.

Ltac le_witness :=
  eexists; split; [reflexivity | split; [reflexivity |
    try discriminate; intros; split; reflexivity]].

Lemma SFcompare_antisym (x y : spec_float) :
  SFcompare y x = option_map CompOpp (SFcompare x y).
Proof.
  destruct x as [sx|sx| |sx mx ex], y as [sy|sy| |sy my ey]; simpl;
    try destruct sx; try destruct sy; simpl; try reflexivity;
    cmp_cases; simpl; try reflexivity; try lia; subst; try lia.
Qed.

Lemma SFcompare_trans (x y z : spec_float) (c1 c2 : comparison) :
  SFcompare x y = Some c1 -> SFcompare y z = Some c2 ->
  le_cmp c1 = true -> le_cmp c2 = true ->
  exists c3, SFcompare x z = Some c3 /\ le_cmp c3 = true /\
             (c3 = Eq -> c1 = Eq /\ c2 = Eq).
Proof.
  intros H1 H2 L1 L2.
  destruct x as [sx|sx| |sx mx ex], y as [sy|sy| |sy my ey],
           z as [sz|sz| |sz mz ez]; simpl in *;
    try discriminate;
    try destruct sx; try destruct sy; try destruct sz; simpl in *;
    injection H1 as <-; injection H2 as <-; simpl in *;
    try discriminate; try le_witness.
  all: cmp_cases; simpl in *; try discriminate; subst; try lia;
    try le_witness.
Qed.

Lemma SFcompare_none (x y : spec_float) :
  SFcompare x y = None <-> x = S754_nan \/ y = S754_nan.
Proof.
  destruct x as [sx|sx| |sx mx ex], y as [sy|sy| |sy my ey]; simpl;
    split; intros H; try discriminate; auto;
    destruct H as [H|H]; discriminate.
Qed.

Lemma SFcompare_refl (x : spec_float) :
  x <> S754_nan -> SFcompare x x = Some Eq.
Proof.
  destruct x as [s|s| |s m e]; simpl; intros H; try congruence.
  - destruct s; reflexivity.
  - destruct s; rewrite Z.compare_refl;
      change (Pos.compare_cont Eq m m) with (Pos.compare m m);
      rewrite Pos.compare_refl; reflexivity.
Qed.

(** The three primitive tests, read off [fcmp]. *)
Lemma ltb_fcmp (x y : float) :
  (x <? y)%float = match fcmp x y with Some Lt => true | _ => false end.
Proof. rewrite ltb_spec. reflexivity. Qed.

Lemma leb_fcmp (x y : float) :
  (x <=? y)%float =
  match fcmp x y with Some (Lt | Eq) => true | _ => false end.
Proof. rewrite leb_spec. reflexivity. Qed.

Lemma eqb_fcmp (x y : float) :
  (x =? y)%float = match fcmp x y with Some Eq => true | _ => false end.
Proof. rewrite eqb_spec. reflexivity. Qed.

Lemma is_nan_spec (x : float) :
  is_nan x = true <-> Prim2SF x = S754_nan.
Proof.
  unfold is_nan. rewrite eqb_fcmp. unfold fcmp. split.
  - intros H. destruct (Prim2SF x) eqn:E; try reflexivity;
      rewrite SFcompare_refl in H by discriminate; discriminate.
  - intros ->. reflexivity.
Qed.

Lemma not_nan_spec (x : float) :
  is_nan x = false <-> Prim2SF x <> S754_nan.
Proof.
  rewrite <- is_nan_spec. destruct (is_nan x); split; congruence.
Qed.

Lemma fcmp_none (x y : float) :
  fcmp x y = None <-> is_nan x = true \/ is_nan y = true.
Proof. unfold fcmp. rewrite SFcompare_none, !is_nan_spec. tauto. Qed.

Lemma fcmp_some (x y : float) :
  is_nan x = false -> is_nan y = false -> exists c, fcmp x y = Some c.
Proof.
  intros Hx Hy. destruct (fcmp x y) as [c|] eqn:E; [eauto|].
  apply fcmp_none in E. destruct E; congruence.
Qed.

Lemma fcmp_antisym (x y : float) :
  fcmp y x = option_map CompOpp (fcmp x y).
Proof. apply SFcompare_antisym. Qed.

(** *** NaN makes every test false *)

Lemma ltb_nan_l (x y : float) : is_nan x = true -> (x <? y)%float = false.
Proof.
  intros H. rewrite ltb_fcmp.
  replace (fcmp x y) with (@None comparison); [reflexivity|].
  symmetry. apply fcmp_none. auto.
Qed.

Lemma ltb_nan_r (x y : float) : is_nan y = true -> (x <? y)%float = false.
Proof.
  intros H. rewrite ltb_fcmp.
  replace (fcmp x y) with (@None comparison); [reflexivity|].
  symmetry. apply fcmp_none. auto.
Qed.

Lemma leb_nan_l (x y : float) : is_nan x = true -> (x <=? y)%float = false.
Proof.
  intros H. rewrite leb_fcmp.
  replace (fcmp x y) with (@None comparison); [reflexivity|].
  symmetry. apply fcmp_none. auto.
Qed.

Lemma leb_nan_r (x y : float) : is_nan y = true -> (x <=? y)%float = false.
Proof.
  intros H. rewrite leb_fcmp.
  replace (fcmp x y) with (@None comparison); [reflexivity|].
  symmetry. apply fcmp_none. auto.
Qed.

Lemma eqb_nan_l (x y : float) : is_nan x = true -> (x =? y)%float = false.
Proof.
  intros H. rewrite eqb_fcmp.
  replace (fcmp x y) with (@None comparison); [reflexivity|].
  symmetry. apply fcmp_none. auto.
Qed.

Lemma eqb_nan_r (x y : float) : is_nan y = true -> (x =? y)%float = false.
Proof.
  intros H. rewrite eqb_fcmp.
  replace (fcmp x y) with (@None comparison); [reflexivity|].
  symmetry. apply fcmp_none. auto.
Qed.

Lemma ltb_not_nan (x y : float) :
  (x <? y)%float = true -> is_nan x = false /\ is_nan y = false.
Proof.
  intros H. split.
  - destruct (is_nan x) eqn:E; [|reflexivity].
    rewrite (ltb_nan_l x y E) in H. discriminate.
  - destruct (is_nan y) eqn:E; [|reflexivity].
    rewrite (ltb_nan_r x y E) in H. discriminate.
Qed.

Lemma leb_not_nan (x y : float) :
  (x <=? y)%float = true -> is_nan x = false /\ is_nan y = false.
Proof.
  intros H. split.
  - destruct (is_nan x) eqn:E; [|reflexivity].
    rewrite (leb_nan_l x y E) in H. discriminate.
  - destruct (is_nan y) eqn:E; [|reflexivity].
    rewrite (leb_nan_r x y E) in H. discriminate.
Qed.

(** *** The order on the values that are not NaN *)

Lemma ltb_false_leb (x y : float) :
  is_nan x = false -> is_nan y = false ->
  (x <? y)%float = false -> (y <=? x)%float = true.
Proof.
  intros Hx Hy. rewrite ltb_fcmp, leb_fcmp, (fcmp_antisym x y).
  destruct (fcmp_some x y Hx Hy) as [c ->]. destruct c; simpl; congruence.
Qed.

Lemma leb_ltb_false (x y : float) :
  (x <=? y)%float = true -> (y <? x)%float = false.
Proof.
  rewrite ltb_fcmp, leb_fcmp, (fcmp_antisym x y).
  destruct (fcmp x y) as [[]|]; simpl; congruence.
Qed.

Lemma ltb_leb (x y : float) :
  (x <? y)%float = true -> (x <=? y)%float = true.
Proof.
  rewrite ltb_fcmp, leb_fcmp. destruct (fcmp x y) as [[]|]; congruence.
Qed.

Lemma ltb_neq (x y : float) :
  (x <? y)%float = true -> (x =? y)%float = false.
Proof.
  rewrite ltb_fcmp, eqb_fcmp. destruct (fcmp x y) as [[]|]; congruence.
Qed.

Lemma ltb_irrefl (x : float) : (x <? x)%float = false.
Proof.
  destruct (is_nan x) eqn:E; [apply ltb_nan_l; exact E|].
  rewrite ltb_fcmp. unfold fcmp.
  rewrite SFcompare_refl by (apply not_nan_spec; exact E). reflexivity.
Qed.

Lemma leb_refl (x : float) : is_nan x = false -> (x <=? x)%float = true.
Proof.
  intros E. rewrite leb_fcmp. unfold fcmp.
  rewrite SFcompare_refl by (apply not_nan_spec; exact E). reflexivity.
Qed.

Lemma eqb_sym (x y : float) : (x =? y)%float = (y =? x)%float.
Proof.
  rewrite !eqb_fcmp, (fcmp_antisym x y).
  destruct (fcmp x y) as [[]|]; reflexivity.
Qed.

Lemma leb_neq_ltb (x y : float) :
  (x <=? y)%float = true -> (x =? y)%float = false -> (x <? y)%float = true.
Proof.
  rewrite ltb_fcmp, leb_fcmp, eqb_fcmp.
  destruct (fcmp x y) as [[]|]; congruence.
Qed.

Lemma leb_trans (x y z : float) :
  (x <=? y)%float = true -> (y <=? z)%float = true -> (x <=? z)%float = true.
Proof.
  rewrite !leb_fcmp. unfold fcmp. intros H1 H2.
  destruct (SFcompare (Prim2SF x) (Prim2SF y)) as [c1|] eqn:E1;
    [|discriminate].
  destruct (SFcompare (Prim2SF y) (Prim2SF z)) as [c2|] eqn:E2;
    [|discriminate].
  destruct (SFcompare_trans _ _ _ c1 c2 E1 E2) as (c3 & -> & L & _);
    [destruct c1; easy | destruct c2; easy |].
  destruct c3; easy.
Qed.

Lemma ltb_leb_trans (x y z : float) :
  (x <? y)%float = true -> (y <=? z)%float = true -> (x <? z)%float = true.
Proof.
  rewrite !ltb_fcmp, leb_fcmp. unfold fcmp. intros H1 H2.
  destruct (SFcompare (Prim2SF x) (Prim2SF y)) as [c1|] eqn:E1;
    [|discriminate].
  destruct (SFcompare (Prim2SF y) (Prim2SF z)) as [c2|] eqn:E2;
    [|discriminate].
  destruct (SFcompare_trans _ _ _ c1 c2 E1 E2) as (c3 & -> & L & Q);
    [destruct c1; easy | destruct c2; easy |].
  destruct c3; try easy. destruct Q as [-> _]; [reflexivity|discriminate].
Qed.

Lemma leb_ltb_trans (x y z : float) :
  (x <=? y)%float = true -> (y <? z)%float = true -> (x <? z)%float = true.
Proof.
  rewrite !ltb_fcmp, leb_fcmp. unfold fcmp. intros H1 H2.
  destruct (SFcompare (Prim2SF x) (Prim2SF y)) as [c1|] eqn:E1;
    [|discriminate].
  destruct (SFcompare (Prim2SF y) (Prim2SF z)) as [c2|] eqn:E2;
    [|discriminate].
  destruct (SFcompare_trans _ _ _ c1 c2 E1 E2) as (c3 & -> & L & Q);
    [destruct c1; easy | destruct c2; easy |].
  destruct c3; try easy. destruct Q as [_ ->]; [reflexivity|discriminate].
Qed.

Lemma mul_nan_l (x y : float) : is_nan x = true -> is_nan (x * y) = true.
Proof.
  rewrite !is_nan_spec, mul_spec. intros ->. reflexivity.
Qed.

(** *** Magnitudes: the order of [SFcompare] on two finite numbers *)

Lemma SFleb_finite_pos (m : positive) (e : Z) (mb : positive) (eb : Z) :
  SFleb (S754_finite false m e) (S754_finite false mb eb) = true ->
  (e < eb \/ (e = eb /\ Zpos m <= Zpos mb))%Z.
Proof.
  unfold SFleb, SFcompare. cmp_cases; intros; try discriminate; lia.
Qed.

Lemma SFleb_finite_neg (m : positive) (e : Z) (mb : positive) (eb : Z) :
  SFleb (S754_finite true mb eb) (S754_finite true m e) = true ->
  (e < eb \/ (e = eb /\ Zpos m <= Zpos mb))%Z.
Proof.
  unfold SFleb, SFcompare. cmp_cases; simpl; intros; try discriminate; lia.
Qed.

End FloatOrder.

(* ================================================================== *)
(** ** Rounding to nearest and representable bounds *)

Module FloatRound.
Local Open Scope Z_scope.

(** After [k] right shifts of [m0]: the kept part times [2^k] is below
    [m0], by at least half a unit when the round bit is set. *)
Definition shr_inv (m0 k : Z) (mrs : shr_record) : Prop :=
  0 <= shr_m mrs /\ 2 ^ k * shr_m mrs <= m0 /\
  (shr_r mrs = true -> 1 <= k /\ 2 ^ k * shr_m mrs + 2 ^ (k - 1) <= m0).

Lemma shr_1_inv (m0 k : Z) (mrs : shr_record) :
  0 <= k -> shr_inv m0 k mrs -> shr_inv m0 (k + 1) (shr_1 mrs).
Proof.
  intros Hk (H0 & H1 & _). destruct mrs as [m r s]. simpl in *.
  assert (P : 0 < 2 ^ k) by (apply Z.pow_pos_nonneg; lia).
  assert (Q : 2 ^ (k + 1) = 2 * 2 ^ k)
    by (rewrite Z.pow_add_r by lia; change (2 ^ 1) with 2; ring).
  unfold shr_inv. replace (k + 1 - 1) with k by lia. rewrite Q.
  destruct m as [|p|p]; [| |lia].
  - cbn [shr_1 shr_m shr_r]. split; [lia|]. split; [lia|]. discriminate.
  - destruct p as [p|p|]; cbn [shr_1 shr_m shr_r];
      (split; [lia|]); (split; [lia|]); intros; try discriminate; lia.
Qed.

Lemma iter_pos_inv (m0 : Z) (p : positive) :
  forall k mrs, 0 <= k -> shr_inv m0 k mrs ->
  shr_inv m0 (k + Zpos p) (iter_pos shr_1 p mrs).
Proof.
  induction p as [p IH|p IH|]; intros k mrs Hk H; simpl.
  - replace (k + Zpos p~1) with (k + 1 + Zpos p + Zpos p) by lia.
    apply IH; [lia|]. apply IH; [lia|]. apply shr_1_inv; assumption.
  - replace (k + Zpos p~0) with (k + Zpos p + Zpos p) by lia.
    apply IH; [lia|]. apply IH; assumption.
  - apply shr_1_inv; assumption.
Qed.

Lemma shr_fexp_exact (m0 e n : Z) :
  0 <= m0 -> n = fexp prec emax (Zdigits2 m0 + e) - e ->
  (n <= 0 /\
   shr_fexp prec emax m0 e loc_Exact = (Build_shr_record m0 false false, e))
  \/
  (0 < n /\ exists mrs,
     shr_fexp prec emax m0 e loc_Exact = (mrs, e + n) /\ shr_inv m0 n mrs).
Proof.
  intros H0 En. unfold shr_fexp. rewrite <- En.
  destruct n as [|p|p]; cbn [shr shr_record_of_loc].
  - left. split; [lia | reflexivity].
  - right. split; [lia|]. eexists. split; [reflexivity|].
    apply (iter_pos_inv m0 p 0); [lia|].
    unfold shr_inv; cbn [shr_m shr_r]. split; [lia|]. split; [lia|].
    discriminate.
  - left. split; [lia | reflexivity].
Qed.

Lemma digits2_pos_bounds (m : positive) :
  2 ^ (Zpos (digits2_pos m) - 1) <= Zpos m < 2 ^ Zpos (digits2_pos m).
Proof.
  induction m as [m IH|m IH|]; simpl digits2_pos.
  - rewrite Pos2Z.inj_succ. replace (Z.succ (Zpos (digits2_pos m)) - 1)
      with (Zpos (digits2_pos m) - 1 + 1) by lia.
    rewrite Z.pow_succ_r by lia. rewrite Z.pow_add_r by lia.
    change (2 ^ 1) with 2. lia.
  - rewrite Pos2Z.inj_succ. replace (Z.succ (Zpos (digits2_pos m)) - 1)
      with (Zpos (digits2_pos m) - 1 + 1) by lia.
    rewrite Z.pow_succ_r by lia. rewrite Z.pow_add_r by lia.
    change (2 ^ 1) with 2. lia.
  - simpl. lia.
Qed.

Lemma fexp_mono (a b : Z) : a <= b -> fexp prec emax a <= fexp prec emax b.
Proof. unfold fexp. lia. Qed.

Lemma round_nearest_even_le (mrs : shr_record) :
  shr_m mrs <= round_nearest_even (shr_m mrs) (loc_of_shr_record mrs)
              <= shr_m mrs + (if shr_r mrs then 1 else 0).
Proof.
  destruct mrs as [m [|] [|]]; simpl; try lia.
  destruct (Z.even m); lia.
Qed.


Lemma pow2_pos (a : Z) : 0 <= a -> 0 < 2 ^ a.
Proof. intros. apply Z.pow_pos_nonneg; lia. Qed.

Lemma pow2_add (a b : Z) : 0 <= a -> 0 <= b -> 2 ^ (a + b) = 2 ^ a * 2 ^ b.
Proof. intros. apply Z.pow_add_r; assumption. Qed.

Lemma pow2_exp_lt (a b x : Z) : 0 <= a -> 2 ^ a <= x -> x < 2 ^ b -> a < b.
Proof.
  intros Ha H1 H2. destruct (Z_lt_le_dec a b) as [L|L]; [exact L|].
  exfalso. destruct (Z_lt_le_dec b 0) as [N|N].
  - rewrite (Z.pow_neg_r 2 b N) in H2. pose proof (pow2_pos a Ha). lia.
  - pose proof (Z.pow_le_mono_r 2 b a ltac:(lia) L). lia.
Qed.

(** A number below [mb * 2^t] has at most [t] digits more than [mb]. *)
Lemma digits_le_shift (p mb : positive) (t : Z) :
  0 <= t -> Zpos p <= Zpos mb * 2 ^ t ->
  Zpos (digits2_pos p) <= Zpos (digits2_pos mb) + t.
Proof.
  intros Ht H.
  pose proof (digits2_pos_bounds p) as [Lp _].
  pose proof (digits2_pos_bounds mb) as [_ Ub].
  pose proof (pow2_pos t Ht) as Pt.
  assert (X : Zpos p < 2 ^ (Zpos (digits2_pos mb) + t)).
  { rewrite pow2_add by lia. nia. }
  pose proof (pow2_exp_lt (Zpos (digits2_pos p) - 1) _ _ ltac:(lia) Lp X).
  lia.
Qed.

Lemma bounded_spec (m : positive) (e : Z) :
  bounded prec emax m e = true ->
  fexp prec emax (Zpos (digits2_pos m) + e) = e /\ e <= emax - prec.
Proof.
  unfold bounded, canonical_mantissa. intros H.
  apply andb_prop in H. destruct H as [H1 H2].
  apply Z.eqb_eq in H1. apply Z.leb_le in H2. split; assumption.
Qed.

(** Rounding a product to nearest cannot pass a representable bound: if
    the exact value [mx * 2^ex] is at most [mb * 2^eb], a binary64 number,
    so is the rounded one, in the order of [SFcompare]. *)
Lemma binary_round_aux_bound (sx : bool) (mx : positive) (ex : Z)
  (mb : positive) (eb : Z) :
  bounded prec emax mb eb = true -> ex <= eb ->
  Zpos mx <= Zpos mb * 2 ^ (eb - ex) ->
  match binary_round_aux prec emax sx (Zpos mx) ex loc_Exact with
  | S754_zero s => s = sx
  | S754_finite s m e => s = sx /\ (e < eb \/ (e = eb /\ Zpos m <= Zpos mb))
  | _ => False
  end.
Proof.
  intros Hb Hex Hv. destruct (bounded_spec mb eb Hb) as [Cb Eb].
  unfold binary_round_aux.
  (* first shift and rounding *)
  assert (S1 : exists mr e', 
    (let '(mrs', e0) := shr_fexp prec emax (Zpos mx) ex loc_Exact in
     (round_nearest_even (shr_m mrs') (loc_of_shr_record mrs'), e0)) = (mr, e') /\
    0 <= mr /\ e' <= eb /\ mr <= Zpos mb * 2 ^ (eb - e')).
  { destruct (shr_fexp_exact (Zpos mx) ex _ ltac:(lia) eq_refl)
      as [[Hn E]|[Hn (mrs & E & I)]]; rewrite E.
    - eexists _, _. split; [reflexivity|].
      cbn [round_nearest_even shr_m loc_of_shr_record].
      split; [lia|]. split; assumption.
    - eexists _, _. split; [reflexivity|].
      set (n := fexp prec emax (Zdigits2 (Zpos mx) + ex) - ex) in *.
      destruct I as (I0 & I1 & I2).
      pose proof (round_nearest_even_le mrs) as [R0 R1].
      assert (De : ex + n <= eb).
      { unfold n. cbn [Zdigits2].
        pose proof (digits_le_shift mx mb (eb - ex) ltac:(lia) Hv).
        pose proof (fexp_mono (Zpos (digits2_pos mx) + ex)
                      (Zpos (digits2_pos mb) + eb) ltac:(lia)).
        lia. }
      split; [lia|]. split; [exact De|].
      pose proof (pow2_pos (eb - (ex + n)) ltac:(lia)) as PK.
      pose proof (pow2_pos (n - 1) ltac:(lia)) as PH.
      assert (EN : 2 ^ n = 2 * 2 ^ (n - 1)).
      { replace n with (1 + (n - 1)) at 1 by lia.
        rewrite pow2_add by lia. reflexivity. }
      assert (EK : 2 ^ (eb - ex) = 2 ^ (eb - (ex + n)) * 2 ^ n).
      { rewrite <- pow2_add by lia. f_equal. lia. }
      rewrite EK in Hv. rewrite EN in *.
      destruct (shr_r mrs).
      + destruct (I2 eq_refl) as [_ I3]. nia.
      + nia. }
  destruct S1 as (mr & e' & E1 & M0 & De & Mv).
  destruct (shr_fexp prec emax (Zpos mx) ex loc_Exact) as [mrs1 e1].
  injection E1 as -> ->. clear mrs1.
  (* second shift *)
  destruct (shr_fexp_exact mr e' _ M0 eq_refl)
    as [[Hn E]|[Hn (mrs & E & I)]]; rewrite E.
  - cbn [shr_m]. destruct mr as [|m|m]; [reflexivity| |lia].
    replace (e' <=? emax - prec) with true by (symmetry; apply Z.leb_le; lia).
    split; [reflexivity|].
    destruct (Z.eq_dec e' eb) as [->|]; [right|left; lia].
    split; [reflexivity|]. rewrite Z.sub_diag in Mv. simpl in Mv. lia.
  - set (n := fexp prec emax (Zdigits2 mr + e') - e') in *.
    destruct I as (I0 & I1 & _).
    assert (De2 : e' + n <= eb).
    { assert (X : Zdigits2 mr + e' <= Zpos (digits2_pos mb) + eb).
      { destruct mr as [|q|q]; cbn [Zdigits2]; [lia| |lia].
        pose proof (digits_le_shift q mb (eb - e') ltac:(lia) Mv). lia. }
      pose proof (fexp_mono _ _ X). unfold n. lia. }
    pose proof (pow2_pos n ltac:(lia)) as PN.
    destruct (shr_m mrs) as [|m|m] eqn:Em; [reflexivity| |lia].
    replace (e' + n <=? emax - prec) with true
      by (symmetry; apply Z.leb_le; lia).
    split; [reflexivity|].
    destruct (Z.eq_dec (e' + n) eb) as [Q|]; [right|left; lia].
    split; [exact Q|].
    replace (eb - e') with n in Mv by lia. nia.
Qed.


Lemma valid_finite (x : float) (s : bool) (m : positive) (e : Z) :
  Prim2SF x = S754_finite s m e -> bounded prec emax m e = true.
Proof.
  intros E. pose proof (Prim2SF_valid x) as V. rewrite E in V. exact V.
Qed.

Lemma bounded_mantissa (m : positive) (e : Z) :
  bounded prec emax m e = true -> Zpos m < 2 ^ 53.
Proof.
  intros H. destruct (bounded_spec m e H) as [C _].
  pose proof (digits2_pos_bounds m) as [_ U].
  assert (D : Zpos (digits2_pos m) <= 53).
  { unfold fexp, prec in C. lia. }
  pose proof (Z.pow_le_mono_r 2 _ 53 ltac:(lia) D). lia.
Qed.

Local Open Scope float_scope.

(** The constant of line 104, as binary64. *)
Lemma Prim2SF_09 : Prim2SF 0.9 = S754_finite false 8106479329266893 (-53).
Proof. reflexivity. Qed.

(** Nine tenths of a value that is zero or negative is not below it. *)
Lemma mul_09_not_below (b : float) :
  (b <=? 0) = true -> (b * 0.9 <? b) = false.
Proof.
  rewrite leb_spec, ltb_spec, mul_spec, Prim2SF_09.
  change (Prim2SF 0) with (S754_zero false).
  destruct (Prim2SF b) as [s|s| |s m e] eqn:E; cbn [SF64mul SFmul].
  - intros _. reflexivity.
  - destruct s; [reflexivity | discriminate].
  - discriminate.
  - destruct s; [intros _ | discriminate].
    pose proof (valid_finite b _ _ _ E) as Hb.
    pose proof (bounded_mantissa m e Hb) as Hm.
    pose proof (binary_round_aux_bound (xorb true false)
                  (m * 8106479329266893) (e + -53) m e Hb ltac:(lia)) as R.
    replace (e - (e + -53))%Z with 53%Z in R by lia.
    specialize (R ltac:(rewrite Pos2Z.inj_mul; lia)).
    destruct (binary_round_aux prec emax (xorb true false)
                (Zpos (m * 8106479329266893)) (e + -53) loc_Exact)
      as [s'|s'| |s' m' e']; try contradiction.
    + reflexivity.
    + destruct R as [-> R]. unfold SFltb, SFcompare. cbn [xorb].
      destruct R as [R|[-> R]].
      * rewrite (proj2 (Z.compare_lt_iff e' e) R). reflexivity.
      * rewrite Z.compare_refl.
        change (Pos.compare_cont Eq m' m) with (Pos.compare m' m).
        destruct (Pos.compare_spec m' m); try reflexivity. lia.
Qed.

End FloatRound.

(* ================================================================== *)
(** ** Dictionaries with distinct keys *)

Lemma dict_get_nth (d : dict) :
  NoDup (map fst d) ->
  forall i k v, nth_error d i = Some (k, v) -> dict_get d k = Some v.
Proof.
  induction d as [|[k0 v0] d IH]; intros ND i k v H.
  - destruct i; discriminate.
  - inversion ND as [|? ? Hnotin ND']; subst. simpl.
    destruct i as [|i]; simpl in H.
    + injection H as -> ->. rewrite String.eqb_refl. reflexivity.
    + destruct (String.eqb_spec k0 k) as [->|_].
      * exfalso. apply Hnotin. apply nth_error_In in H.
        apply (in_map fst) in H. exact H.
      * eapply IH; eauto.
Qed.

Lemma dict_get_In (d : dict) (k : string) (v : float) :
  NoDup (map fst d) -> In (k, v) d -> dict_get d k = Some v.
Proof.
  intros ND H. apply In_nth_error in H. destruct H as [i H].
  eapply dict_get_nth; eauto.
Qed.

Lemma dict_get_Some_In (d : dict) (k : string) (v : float) :
  dict_get d k = Some v -> In (k, v) d.
Proof.
  induction d as [|[k0 v0] d IH]; simpl; [discriminate|].
  destruct (String.eqb_spec k0 k) as [->|_].
  - intros [= ->]. auto.
  - auto.
Qed.

(* ================================================================== *)
(** ** The scan of [max] *)

(** The scan over the items, once the keys are known to be distinct. *)
Definition keep_max (best kv : string * float) : string * float :=
  if gt (snd kv) (snd best) then kv else best.

Lemma max_scan_items (d : dict) (rest : dict) (best : string * float) :
  (forall kv, In kv rest -> dict_get d (fst kv) = Some (snd kv)) ->
  fold_left (max_step d) (map fst rest) (Some best) =
  Some (fold_left keep_max rest best).
Proof.
  revert best. induction rest as [|[k v] rest IH]; intros best H.
  - reflexivity.
  - pose proof (H (k, v) (or_introl eq_refl)) as Hk. simpl in Hk.
    simpl. rewrite Hk. apply IH. intros; apply H; right; assumption.
Qed.

Lemma max_by_get_items (kv0 : string * float) (rest : dict) :
  NoDup (map fst (kv0 :: rest)) ->
  max_by_get (kv0 :: rest) = Some (fst (fold_left keep_max rest kv0)).
Proof.
  intros ND. unfold max_by_get.
  assert (H0 : dict_get (kv0 :: rest) (fst kv0) = Some (snd kv0)).
  { apply (dict_get_nth _ ND 0). destruct kv0; reflexivity. }
  assert (Hr : forall kv, In kv rest ->
                 dict_get (kv0 :: rest) (fst kv) = Some (snd kv)).
  { intros [k v] Hin. apply dict_get_In; [exact ND | right; exact Hin]. }
  change (map fst (kv0 :: rest)) with (fst kv0 :: map fst rest). cbv iota.
  rewrite H0, (max_scan_items _ _ _ Hr). destruct kv0; reflexivity.
Qed.

Import FloatOrder.

(** A value [c] is strictly below [v], or is no number at all. *)
Definition below (c v : float) : Prop :=
  is_nan c = true \/ (c <? v)%float = true.

(** What the scan returns, from a running maximum [best] over [rest]. *)
Lemma keep_max_scan (rest : dict) (best : string * float) :
  let res := fold_left keep_max rest best in
  (res = best /\
   forall kv, In kv rest -> gt (snd kv) (snd best) = false) \/
  (exists i, nth_error rest i = Some res /\
     gt (snd res) (snd best) = true /\
     (forall j kv, nth_error rest j = Some kv ->
        gt (snd kv) (snd res) = false) /\
     (forall j kv, (j < i)%nat -> nth_error rest j = Some kv ->
        below (snd kv) (snd res))).
Proof.
  revert best. induction rest as [|x rest IH]; intros best; cbv zeta.
  - left. split; [reflexivity | intros ? []].
  - simpl fold_left. cbv zeta in IH.
    destruct (gt (snd x) (snd best)) eqn:G.
    + (* x replaces the running maximum *)
      assert (K : keep_max best x = x)
        by (unfold keep_max; rewrite G; reflexivity).
      rewrite K.
      right. destruct (IH x) as [[E A]|(i & Hi & Gi & A & B)].
      * exists 0%nat. rewrite E. split; [reflexivity|]. split; [exact G|].
        split.
        -- intros [|j] kv Hj; simpl in Hj.
           ++ injection Hj as <-. apply ltb_irrefl.
           ++ apply A. eapply nth_error_In; eauto.
        -- intros j kv Hlt. lia.
      * exists (S i). split; [exact Hi|]. unfold gt in *. split.
        -- eapply ltb_leb_trans; [exact G | apply ltb_leb; exact Gi].
        -- split.
           ++ intros [|j] kv Hj; simpl in Hj.
              ** injection Hj as <-. apply leb_ltb_false, ltb_leb. exact Gi.
              ** eapply A; eauto.
           ++ intros [|j] kv Hlt Hj; simpl in Hj.
              ** injection Hj as <-. right. exact Gi.
              ** apply (B j); [lia | exact Hj].
    + (* the running maximum stays *)
      assert (K : keep_max best x = best)
        by (unfold keep_max; rewrite G; reflexivity).
      rewrite K.
      destruct (IH best) as [[E A]|(i & Hi & Gi & A & B)].
      * left. split; [exact E|]. intros kv [<-|Hin]; [exact G | auto].
      * right. exists (S i). split; [exact Hi|]. split; [exact Gi|].
        unfold gt in *.
        destruct (ltb_not_nan _ _ Gi) as [Nb Nr].
        assert (X : below (snd x) (snd (fold_left keep_max rest best))).
        { destruct (is_nan (snd x)) eqn:Nx; [left; exact Nx|].
          right. eapply leb_ltb_trans; [|exact Gi].
          apply ltb_false_leb; assumption. }
        split.
        -- intros [|j] kv Hj; simpl in Hj.
           ++ injection Hj as <-. destruct X as [X|X].
              ** apply ltb_nan_r. exact X.
              ** apply leb_ltb_false, ltb_leb. exact X.
           ++ eapply A; eauto.
        -- intros [|j] kv Hlt Hj; simpl in Hj.
           ++ injection Hj as <-. exact X.
           ++ apply (B j); [lia | exact Hj].
Qed.

(** The scan over a whole dict [kv0 :: rest]: the result sits at some index
    [i]; no item is greater; every item before [i] is strictly below. *)
Lemma keep_max_first_maximum (kv0 : string * float) (rest : dict) :
  let res := fold_left keep_max rest kv0 in
  exists i, nth_error (kv0 :: rest) i = Some res /\
    (forall j kv, nth_error (kv0 :: rest) j = Some kv ->
       gt (snd kv) (snd res) = false) /\
    (forall j kv, (j < i)%nat -> nth_error (kv0 :: rest) j = Some kv ->
       below (snd kv) (snd res)).
Proof.
  intros res. subst res.
  destruct (keep_max_scan rest kv0) as [[E A]|(i & Hi & Gi & A & B)].
  - exists 0%nat. rewrite E. split; [reflexivity|]. split.
    + intros [|j] kv Hj; simpl in Hj.
      * injection Hj as <-. apply ltb_irrefl.
      * apply A. eapply nth_error_In; eauto.
    + intros; lia.
  - exists (S i). split; [exact Hi|]. unfold gt in *. split.
    + intros [|j] kv Hj; simpl in Hj.
      * injection Hj as <-. apply leb_ltb_false, ltb_leb. exact Gi.
      * eapply A; eauto.
    + intros [|j] kv Hlt Hj; simpl in Hj.
      * injection Hj as <-. right. exact Gi.
      * apply (B j); [lia | exact Hj].
Qed.

(* ================================================================== *)
(** ** The scan of [_find_alternative_key] *)

Lemma find_first {A : Type} (f : A -> bool) (l : list A) (x : A) :
  find f l = Some x ->
  exists i, nth_error l i = Some x /\ f x = true /\
    forall j y, (j < i)%nat -> nth_error l j = Some y -> f y = false.
Proof.
  induction l as [|a l IH]; simpl; [discriminate|].
  destruct (f a) eqn:Fa.
  - intros [= <-]. exists 0%nat. split; [reflexivity|]. split; [exact Fa|].
    intros; lia.
  - intros H. destruct (IH H) as (i & Hi & Fx & Hj). exists (S i).
    split; [exact Hi|]. split; [exact Fx|].
    intros [|j] y Hlt Hy; simpl in Hy.
    + injection Hy as <-. exact Fa.
    + apply (Hj j); [lia | exact Hy].
Qed.

(** The loop leaves every other attribute alone and stores the first
    qualifying item, if there is one. *)
Lemma alt_loop_spec (items : dict) (self : Tonal_Fragment) :
  let r := alt_loop items self in
  chroma_vals r = chroma_vals self /\ keyfreqs r = keyfreqs self /\
  key_dict r = key_dict self /\ key r = key self /\
  bestcorr r = bestcorr self /\
  match find (fun kv => qualifies (bestcorr self) (snd kv)) items with
  | Some kv => altkey r = Some (fst kv) /\ altbestcorr r = Some (snd kv)
  | None => altkey r = altkey self /\ altbestcorr r = altbestcorr self
  end.
Proof.
  induction items as [|[k c] items IH]; simpl.
  - repeat split.
  - destruct (qualifies (bestcorr self) c); [repeat split | exact IH].
Qed.

(* ================================================================== *)
(** ** The candidate names *)

Fixpoint distinct (l : list string) : bool :=
  match l with
  | [] => true
  | x :: l' => negb (existsb (String.eqb x) l') && distinct l'
  end.

Lemma distinct_NoDup (l : list string) : distinct l = true -> NoDup l.
Proof.
  induction l as [|x l IH]; simpl; intros H; constructor.
  - apply andb_prop in H. destruct H as [H _]. intros Hin.
    apply negb_true_iff in H.
    assert (E : existsb (String.eqb x) l = true).
    { apply existsb_exists. exists x. split; [exact Hin|].
      apply String.eqb_refl. }
    congruence.
  - apply IH. apply andb_prop in H. tauto.
Qed.

Lemma candidate_names_NoDup : NoDup candidate_names.
Proof. apply distinct_NoDup. vm_compute. reflexivity. Qed.

Lemma candidate_names_length : List.length candidate_names = 24%nat.
Proof. reflexivity. Qed.

Lemma map_fst_combine {A B : Type} (l : list A) (l' : list B) :
  List.length l = List.length l' -> map fst (combine l l') = l.
Proof.
  revert l'. induction l as [|a l IH]; intros [|b l'] H; simpl in *;
    try discriminate; [reflexivity|].
  f_equal. apply IH. lia.
Qed.

(** Every candidate name is the name of a root and a mode. *)
Lemma candidate_names_In (k : string) :
  In k candidate_names ->
  exists r m, (r < 12)%nat /\ k = candidate_name r m.
Proof.
  unfold candidate_names. rewrite in_app_iff, !in_map_iff.
  intros [(r & <- & Hr)|(r & <- & Hr)]; apply in_seq in Hr;
    [exists r, major | exists r, minor]; (split; [lia | reflexivity]).
Qed.

Section Classifier.

Variable corrcoef : list float -> list float -> float.
Variable round : float -> nat -> float.

(** The 24 rounded coefficients in the order of the CandidateList. *)
Definition correlations (chroma : list float) : list float :=
  map (fun r => round (corrcoef MAJ_PROFILE (rotated chroma r)) 3) (range 12)
  ++
  map (fun r => round (corrcoef MIN_PROFILE (rotated chroma r)) 3) (range 12).

Lemma correlations_length (chroma : list float) :
  List.length (correlations chroma) = 24%nat.
Proof. reflexivity. Qed.

Ltac twelve chroma H :=
  do 12 (destruct chroma as [|? chroma]; [discriminate H|]);
  destruct chroma; [clear H | discriminate H].

Lemma keyfreqs_eq (chroma : list float) :
  List.length chroma = 12%nat ->
  comprehension
    (fun i => p <- nth_error PITCHES i ;; v <- nth_error chroma i ;;
              Some (p, v)) (range 12) = Some (combine PITCHES chroma) /\
  dict_of_items (combine PITCHES chroma) = combine PITCHES chroma.
Proof. intros H. twelve chroma H. split; reflexivity. Qed.


Lemma compute_key_correlations_eq (chroma : list float) :
  List.length chroma = 12%nat ->
  _compute_key_correlations corrcoef round (combine PITCHES chroma) =
  Some (combine candidate_names (correlations chroma)).
Proof. intros H. twelve chroma H. vm_compute. reflexivity. Qed.

Lemma correlations_nth (chroma : list float) (r : nat) :
  (r < 12)%nat ->
  nth_error (correlations chroma) r =
    Some (round (corrcoef MAJ_PROFILE (rotated chroma r)) 3) /\
  nth_error (correlations chroma) (12 + r) =
    Some (round (corrcoef MIN_PROFILE (rotated chroma r)) 3).
Proof.
  intros Hr. do 12 (destruct r as [|r]; [split; reflexivity|]). lia.
Qed.

Lemma keep_max_nan_first (rest : dict) (kv0 : string * float) :
  is_nan (snd kv0) = true -> fold_left keep_max rest kv0 = kv0.
Proof.
  intros N. induction rest as [|x rest IH]; [reflexivity|].
  simpl. unfold keep_max at 2. unfold gt. rewrite (ltb_nan_l _ _ N).
  exact IH.
Qed.

(** What [__init__] stores for twelve energies. *)
Lemma init_spec (chroma : list float) :
  List.length chroma = 12%nat ->
  exists tf i,
    __init__ corrcoef round chroma = Some tf /\
    chroma_vals tf = chroma /\
    keyfreqs tf = combine PITCHES chroma /\
    key_dict tf = combine candidate_names (correlations chroma) /\
    nth_error (key_dict tf) i = Some (key tf, bestcorr tf) /\
    (forall j kv, nth_error (key_dict tf) j = Some kv ->
       gt (snd kv) (bestcorr tf) = false) /\
    (forall j kv, (j < i)%nat -> nth_error (key_dict tf) j = Some kv ->
       below (snd kv) (bestcorr tf)) /\
    (forall kv0 rest, key_dict tf = kv0 :: rest ->
       (key tf, bestcorr tf) = fold_left keep_max rest kv0) /\
    match find (fun kv => qualifies (bestcorr tf) (snd kv)) (key_dict tf) with
    | Some kv => altkey tf = Some (fst kv) /\ altbestcorr tf = Some (snd kv)
    | None => altkey tf = None /\ altbestcorr tf = None
    end.
Proof.
  intros H. unfold __init__.
  destruct (keyfreqs_eq chroma H) as [E1 E2]. rewrite E1, E2.
  rewrite (compute_key_correlations_eq chroma H).
  set (d := combine candidate_names (correlations chroma)).
  assert (ND : NoDup (map fst d)).
  { unfold d. rewrite map_fst_combine by reflexivity.
    exact candidate_names_NoDup. }
  destruct d as [|kv0 rest] eqn:Ed; [discriminate Ed|].
  rewrite (max_by_get_items kv0 rest ND).
  destruct (keep_max_first_maximum kv0 rest) as (i & Hi & A & B).
  remember (fold_left keep_max rest kv0) as res eqn:Eres.
  destruct res as [kb vb]. simpl in A, B. simpl fst. simpl snd.
  rewrite (dict_get_nth _ ND i kb vb Hi).
  match goal with
  | |- exists tf i, Some (_find_alternative_key ?t0) = Some tf /\ _ =>
      set (tf0 := t0)
  end.
  destruct (alt_loop_spec (key_dict tf0) tf0) as (F1 & F2 & F3 & F4 & F5 & F6).
  exists (_find_alternative_key tf0), i. unfold _find_alternative_key.
  rewrite F1, F2, F3, F4, F5. simpl.
  split; [reflexivity|]. split; [reflexivity|]. split; [reflexivity|].
  split; [reflexivity|].
  split; [exact Hi|]. split; [exact A|]. split; [exact B|].
  split.
  - intros kv0' rest' [= <- <-]. exact Eres.
  - simpl in F6.
    destruct (find (fun kv => qualifies vb (snd kv)) (kv0 :: rest));
      exact F6.
Qed.

(** The stored primary key is one of the 24 labels. *)
Lemma key_is_candidate (tf : Tonal_Fragment) (vals : list float) (i : nat) :
  key_dict tf = combine candidate_names vals ->
  nth_error (key_dict tf) i = Some (key tf, bestcorr tf) ->
  In (key tf) candidate_names.
Proof.
  intros E Hi. apply nth_error_In in Hi. rewrite E in Hi.
  apply in_combine_l in Hi. exact Hi.
Qed.

End Classifier.

(* ================================================================== *)
(** ** [get_key_with_context] on a stored estimate *)

Ltac twenty_four vals H :=
  do 24 (destruct vals as [|? vals]; [discriminate H|]);
  destruct vals; [clear H | discriminate H].

(** With [prefer_minor] unset the stored pair is returned. *)
Lemma get_key_plain (threshold : float) (tf : Tonal_Fragment) :
  get_key_with_context false threshold tf =
  Some ((key tf, bestcorr tf), tf).
Proof. reflexivity. Qed.

(** A minor primary key is returned as it is. *)
Lemma get_key_minor (threshold : float) (tf : Tonal_Fragment) (r : nat) :
  (r < 12)%nat -> key tf = candidate_name r minor ->
  get_key_with_context true threshold tf =
  Some ((key tf, bestcorr tf), tf).
Proof.
  intros Hr Hk. unfold get_key_with_context. rewrite Hk.
  do 12 (destruct r as [|r]; [reflexivity|]). lia.
Qed.

(** A major primary key: the relative minor is looked up and compared. *)
Lemma get_key_major (threshold : float) (tf : Tonal_Fragment)
  (vals : list float) (r : nat) :
  key_dict tf = combine candidate_names vals ->
  List.length vals = 24%nat ->
  (r < 12)%nat -> key tf = candidate_name r major ->
  exists minor_corr,
    nth_error vals (12 + relative_minor_root r) = Some minor_corr /\
    dict_get (key_dict tf) (candidate_name (relative_minor_root r) minor) =
      Some minor_corr /\
    get_key_with_context true threshold tf =
    Some (if gt minor_corr (bestcorr tf * threshold)%float
          then (candidate_name (relative_minor_root r) minor, minor_corr)
          else (key tf, bestcorr tf), tf).
Proof.
  intros Hd Hl Hr Hk. twenty_four vals Hl.
  unfold get_key_with_context. rewrite Hk, Hd.
  do 12 (destruct r as [|r];
    [eexists; split; [reflexivity|]; split; [reflexivity|];
     vm_compute;
     match goal with
     | |- context [PrimFloat.ltb ?a ?b] => destruct (PrimFloat.ltb a b)
     end; reflexivity|]).
  lia.
Qed.

(* ================================================================== *)
(** ** The classifier, for every correlation and rounding function *)

Section Claims.

Variable corrcoef : list float -> list float -> float.
Variable round : float -> nat -> float.

Lemma eqb_refl_not_nan (x : float) :
  is_nan x = false -> (x =? x)%float = true.
Proof. unfold is_nan. destruct (x =? x)%float; [reflexivity|discriminate]. Qed.

Lemma find_all_false {A : Type} (f : A -> bool) (l : list A) :
  (forall x, In x l -> f x = false) -> find f l = None.
Proof.
  intros H. destruct (find f l) as [x|] eqn:E; [|reflexivity].
  apply find_some in E. destruct E as [Hin Fx].
  rewrite (H x Hin) in Fx. discriminate.
Qed.

(** C1, as the code has it.  A NaN coefficient is stored as it is, not
    replaced by a number, but the classifier does not report it: the
    constructor always returns an instance whose key is one of the 24
    labels; when the coefficient of the first candidate is NaN, as it is
    when all 24 are, the key is "C major" with a NaN correlation, no
    alternate is stored, and [get_key_with_context] returns that label. *)
Theorem C1_nan_is_labelled_C_major (chroma : list float)
  (prefer_minor : bool) (threshold : float) :
  List.length chroma = 12%nat ->
  exists tf,
    __init__ corrcoef round chroma = Some tf /\
    In (key tf) candidate_names /\
    dict_get (key_dict tf) "C major" =
      Some (round (corrcoef MAJ_PROFILE (rotated chroma 0)) 3) /\
    (is_nan (round (corrcoef MAJ_PROFILE (rotated chroma 0)) 3) = true ->
     key tf = "C major" /\ is_nan (bestcorr tf) = true /\
     altkey tf = None /\ altbestcorr tf = None /\
     get_key_with_context prefer_minor threshold tf =
       Some (("C major", bestcorr tf), tf)).
Proof.
  intros H.
  destruct (init_spec corrcoef round chroma H)
    as (tf & i & E & _ & _ & Ed & Hi & _ & _ & Hfold & F).
  exists tf. split; [exact E|].
  split; [exact (key_is_candidate tf _ i Ed Hi)|].
  set (v0 := round (corrcoef MAJ_PROFILE (rotated chroma 0)) 3).
  assert (Hd : exists rest, key_dict tf = ("C major", v0) :: rest).
  { rewrite Ed. eexists. reflexivity. }
  destruct Hd as [rest Hd].
  split; [rewrite Hd; reflexivity|].
  intros N.
  pose proof (Hfold _ _ Hd) as Hb.
  rewrite (keep_max_nan_first rest ("C major", v0) N) in Hb.
  injection Hb as Hk Hc.
  assert (Nb : is_nan (bestcorr tf) = true) by (rewrite Hc; exact N).
  split; [exact Hk|]. split; [exact Nb|].
  rewrite (find_all_false _ (key_dict tf)) in F.
  - destruct F as [F1 F2]. split; [exact F1|]. split; [exact F2|].
    destruct prefer_minor; [|rewrite get_key_plain, Hk; reflexivity].
    destruct (get_key_major threshold tf _ 0 Ed
                (correlations_length corrcoef round chroma)
                ltac:(lia) Hk) as (mc & _ & _ & Hres).
    rewrite Hres. unfold gt.
    rewrite (ltb_nan_l _ _ (mul_nan_l _ threshold Nb)), Hk. reflexivity.
  - intros [k c] _. unfold qualifies, gt. simpl.
    rewrite (ltb_nan_l _ _ (mul_nan_l _ 0.9%float Nb)). reflexivity.
Qed.

(** C2. The primary key is the first candidate, in the order major roots
    0..11 then minor roots 0..11, that attains the maximal correlation: it
    sits at an index [i] of the candidate dictionary, no candidate is
    greater, and a candidate with the same correlation comes at [i] or
    later.  When no coefficient is NaN every candidate is at most the
    primary's correlation and every earlier one is strictly smaller. *)
Theorem C2_primary_is_first_maximum (chroma : list float) :
  List.length chroma = 12%nat ->
  exists tf i,
    __init__ corrcoef round chroma = Some tf /\
    map fst (key_dict tf) = candidate_names /\
    nth_error (key_dict tf) i = Some (key tf, bestcorr tf) /\
    (forall j k c, nth_error (key_dict tf) j = Some (k, c) ->
       gt c (bestcorr tf) = false) /\
    (forall j k c, nth_error (key_dict tf) j = Some (k, c) ->
       (c =? bestcorr tf)%float = true -> (i <= j)%nat) /\
    ((forall k c, In (k, c) (key_dict tf) -> is_nan c = false) ->
     (forall j k c, nth_error (key_dict tf) j = Some (k, c) ->
        (c <=? bestcorr tf)%float = true) /\
     (forall j k c, (j < i)%nat -> nth_error (key_dict tf) j = Some (k, c) ->
        (c <? bestcorr tf)%float = true)).
Proof.
  intros H.
  destruct (init_spec corrcoef round chroma H)
    as (tf & i & E & _ & _ & Ed & Hi & A & B & _ & _).
  exists tf, i. split; [exact E|]. split.
  { rewrite Ed. apply map_fst_combine. reflexivity. }
  split; [exact Hi|]. split.
  { intros j k c Hj. exact (A j (k, c) Hj). }
  split.
  { intros j k c Hj Heq. destruct (Nat.lt_ge_cases j i) as [L|L]; [|exact L].
    exfalso. destruct (B j (k, c) L Hj) as [N|N]; simpl in N.
    - rewrite (eqb_nan_l _ _ N) in Heq. discriminate.
    - rewrite (ltb_neq _ _ N) in Heq. discriminate. }
  intros NN.
  assert (Nb : is_nan (bestcorr tf) = false).
  { apply (NN (key tf)). eapply nth_error_In. exact Hi. }
  split.
  - intros j k c Hj. apply ltb_false_leb.
    + exact Nb.
    + apply (NN k). eapply nth_error_In. exact Hj.
    + exact (A j (k, c) Hj).
  - intros j k c L Hj. destruct (B j (k, c) L Hj) as [N|N]; simpl in N.
    + rewrite (NN k c) in N; [discriminate|]. eapply nth_error_In. exact Hj.
    + exact N.
Qed.

(** C3. The alternate key is the first candidate of the enumeration, read
    from its start, whose correlation is greater than [bestcorr * 0.9] and
    differs from [bestcorr]; when no candidate qualifies [altkey] and
    [altbestcorr] stay [None], in particular when every candidate other than
    the primary is at most [bestcorr * 0.9]. *)
Theorem C3_alternate_is_first_qualifying (chroma : list float) :
  List.length chroma = 12%nat ->
  exists tf,
    __init__ corrcoef round chroma = Some tf /\
    map fst (key_dict tf) = candidate_names /\
    ((altkey tf = None /\ altbestcorr tf = None /\
      forall k c, In (k, c) (key_dict tf) ->
        gt c (bestcorr tf * 0.9)%float && ne c (bestcorr tf) = false)
     \/
     (exists i k c,
        nth_error (key_dict tf) i = Some (k, c) /\
        gt c (bestcorr tf * 0.9)%float = true /\
        ne c (bestcorr tf) = true /\
        (forall j k' c', (j < i)%nat ->
           nth_error (key_dict tf) j = Some (k', c') ->
           gt c' (bestcorr tf * 0.9)%float && ne c' (bestcorr tf) = false) /\
        altkey tf = Some k /\ altbestcorr tf = Some c)) /\
    ((forall k c, In (k, c) (key_dict tf) -> k <> key tf ->
        (c <=? bestcorr tf * 0.9)%float = true) ->
     altkey tf = None /\ altbestcorr tf = None).
Proof.
  intros H.
  destruct (init_spec corrcoef round chroma H)
    as (tf & i & E & _ & _ & Ed & Hi & _ & _ & _ & F).
  assert (Ek : map fst (key_dict tf) = candidate_names).
  { rewrite Ed. apply map_fst_combine. reflexivity. }
  exists tf. split; [exact E|]. split; [exact Ek|].
  set (f := fun kv : string * float => qualifies (bestcorr tf) (snd kv)) in *.
  split.
  - destruct (find f (key_dict tf)) as [[k c]|] eqn:Ef.
    + right. destruct (find_first f _ _ Ef) as (n & Hn & Q & Before).
      exists n, k, c. unfold f, qualifies in Q. simpl in Q.
      apply andb_prop in Q. destruct Q as [Q1 Q2].
      split; [exact Hn|]. split; [exact Q1|]. split; [exact Q2|].
      split; [|exact F].
      intros j k' c' L Hj. exact (Before j (k', c') L Hj).
    + left. destruct F as [F1 F2]. split; [exact F1|]. split; [exact F2|].
      intros k c Hin. exact (find_none f _ Ef (k, c) Hin).
  - intros Low.
    rewrite (find_all_false f (key_dict tf)) in F; [exact F|].
    intros [k c] Hin. unfold f, qualifies. simpl.
    destruct (String.eqb_spec k (key tf)) as [->|Hk].
    + assert (ND : NoDup (map fst (key_dict tf)))
        by (rewrite Ek; exact candidate_names_NoDup).
      pose proof (dict_get_In _ _ _ ND Hin) as G1.
      pose proof (dict_get_nth _ ND _ _ _ Hi) as G2.
      assert (c = bestcorr tf) as -> by congruence.
      destruct (is_nan (bestcorr tf)) eqn:N.
      * unfold gt. rewrite (ltb_nan_l _ _ (mul_nan_l _ 0.9%float N)).
        reflexivity.
      * unfold ne. rewrite (eqb_refl_not_nan _ N). apply andb_false_r.
    + unfold gt. rewrite (leb_ltb_false _ _ (Low k c Hin Hk)). reflexivity.
Qed.

(** C4. With a major primary key of root [r], [get_key_with_context] with
    [prefer_minor] set looks up the minor candidate of root
    [(r - 3) mod 12] and returns its name and correlation exactly when that
    correlation is greater than [bestcorr * threshold]; otherwise it returns
    the primary key and its correlation.  The default threshold is 0.9. *)
Theorem C4_relative_minor_preference (chroma : list float) (r : nat)
  (threshold : float) :
  List.length chroma = 12%nat -> (r < 12)%nat ->
  exists tf,
    __init__ corrcoef round chroma = Some tf /\
    threshold_default = 0.9%float /\
    (key tf = candidate_name r major ->
     let root := relative_minor_root r in
     let relative_minor := candidate_name root minor in
     let minor_corr :=
       round (corrcoef MIN_PROFILE (rotated chroma root)) 3 in
     root = ((r + 9) mod 12)%nat /\
     dict_get (key_dict tf) relative_minor = Some minor_corr /\
     get_key_with_context true threshold tf =
     Some (if gt minor_corr (bestcorr tf * threshold)%float
           then (relative_minor, minor_corr)
           else (key tf, bestcorr tf), tf)).
Proof.
  intros H Hr.
  destruct (init_spec corrcoef round chroma H)
    as (tf & i & E & _ & _ & Ed & _).
  exists tf. split; [exact E|]. split; [reflexivity|].
  intros Hk. cbv zeta.
  destruct (get_key_major threshold tf _ r Ed
              (correlations_length corrcoef round chroma) Hr Hk)
    as (mc & Hn & Hg & Hres).
  assert (Hroot : (relative_minor_root r < 12)%nat).
  { unfold relative_minor_root.
    pose proof (Z.mod_pos_bound (Z.of_nat r - 3) 12 ltac:(lia)). lia. }
  destruct (correlations_nth corrcoef round chroma _ Hroot) as [_ Hmin].
  assert (mc = round (corrcoef MIN_PROFILE
                        (rotated chroma (relative_minor_root r))) 3)
    as -> by congruence.
  split; [|split; [exact Hg | exact Hres]].
  unfold relative_minor_root.
  do 12 (destruct r as [|r]; [reflexivity|]). lia.
Qed.


(** C8. [get_key_with_context] returns a result and leaves the instance as it
    was: the stored key, its correlation, the alternate, its correlation and
    the candidate dictionary after the call are those before it. *)
Theorem C8_get_key_with_context_frame (chroma : list float)
  (prefer_minor : bool) (threshold : float) :
  List.length chroma = 12%nat ->
  exists tf result tf',
    __init__ corrcoef round chroma = Some tf /\
    get_key_with_context prefer_minor threshold tf = Some (result, tf') /\
    tf' = tf /\
    key tf' = key tf /\ bestcorr tf' = bestcorr tf /\
    altkey tf' = altkey tf /\ altbestcorr tf' = altbestcorr tf /\
    key_dict tf' = key_dict tf /\ List.length (key_dict tf') = 24%nat.
Proof.
  intros H.
  destruct (init_spec corrcoef round chroma H)
    as (tf & i & E & _ & _ & Ed & Hi & _).
  assert (L : List.length (key_dict tf) = 24%nat) by (rewrite Ed; reflexivity).
  assert (R : exists result,
            get_key_with_context prefer_minor threshold tf =
            Some (result, tf)).
  { destruct prefer_minor; [|eexists; apply get_key_plain].
    destruct (candidate_names_In _ (key_is_candidate tf _ i Ed Hi))
      as (r & [|] & Hr & Hk).
    - destruct (get_key_major threshold tf _ r Ed
                  (correlations_length corrcoef round chroma) Hr Hk)
        as (mc & _ & _ & Hres).
      eexists. exact Hres.
    - eexists. exact (get_key_minor threshold tf r Hr Hk). }
  destruct R as [result R].
  exists tf, result, tf. repeat split; assumption.
Qed.

(** C9. A reported alternate lies strictly between [bestcorr * 0.9] and
    [bestcorr]; a primary correlation that is zero or negative gives no
    alternate. *)
Theorem C9_alternate_strictly_between (chroma : list float) :
  List.length chroma = 12%nat ->
  exists tf,
    __init__ corrcoef round chroma = Some tf /\
    (forall k, altkey tf = Some k ->
       exists c, altbestcorr tf = Some c /\ In (k, c) (key_dict tf) /\
         (bestcorr tf * 0.9 <? c)%float = true /\
         (c <? bestcorr tf)%float = true) /\
    ((bestcorr tf <=? 0)%float = true ->
       altkey tf = None /\ altbestcorr tf = None).
Proof.
  intros H.
  destruct (init_spec corrcoef round chroma H)
    as (tf & i & E & _ & _ & Ed & Hi & A & _ & _ & F).
  exists tf. split; [exact E|].
  set (f := fun kv : string * float => qualifies (bestcorr tf) (snd kv)) in *.
  assert (Between : forall k c, In (k, c) (key_dict tf) ->
            qualifies (bestcorr tf) c = true ->
            (bestcorr tf * 0.9 <? c)%float = true /\
            (c <? bestcorr tf)%float = true).
  { intros k c Hin Q. unfold qualifies, gt, ne in Q.
    apply andb_prop in Q. destruct Q as [Q1 Q2]. split; [exact Q1|].
    apply negb_true_iff in Q2.
    destruct (ltb_not_nan _ _ Q1) as [Nm Nc].
    assert (Nb : is_nan (bestcorr tf) = false).
    { destruct (is_nan (bestcorr tf)) eqn:N; [|reflexivity].
      rewrite (mul_nan_l _ 0.9%float N) in Nm. discriminate. }
    apply leb_neq_ltb; [|exact Q2].
    apply ltb_false_leb; [exact Nb | exact Nc |].
    apply In_nth_error in Hin. destruct Hin as [j Hj].
    exact (A j (k, c) Hj). }
  split.
  - intros k Hk. destruct (find f (key_dict tf)) as [[k' c]|] eqn:Ef.
    + destruct F as [F1 F2]. simpl in F1, F2.
      assert (k' = k) as -> by congruence.
      apply find_some in Ef. destruct Ef as [Hin Q].
      exists c. split; [exact F2|]. split; [exact Hin|].
      exact (Between k c Hin Q).
    + destruct F as [F1 _]. congruence.
  - intros Neg. destruct (find f (key_dict tf)) as [[k c]|] eqn:Ef;
      [exfalso | exact F].
    apply find_some in Ef. destruct Ef as [Hin Q].
    destruct (Between k c Hin Q) as [B1 B2].
    pose proof (ltb_leb_trans _ _ _ B1 (ltb_leb _ _ B2)) as B3.
    rewrite (FloatRound.mul_09_not_below _ Neg) in B3. discriminate.
Qed.

(** C10. With [prefer_minor] unset, [get_key_with_context] returns the stored
    primary key and its correlation whatever the threshold; with
    [prefer_minor] set it does so whenever the primary key is minor. *)
Theorem C10_primary_returned_unchanged (chroma : list float)
  (threshold : float) :
  List.length chroma = 12%nat ->
  exists tf,
    __init__ corrcoef round chroma = Some tf /\
    get_key_with_context false threshold tf =
      Some ((key tf, bestcorr tf), tf) /\
    (forall r, (r < 12)%nat -> key tf = candidate_name r minor ->
       get_key_with_context true threshold tf =
       Some ((key tf, bestcorr tf), tf)).
Proof.
  intros H.
  destruct (init_spec corrcoef round chroma H) as (tf & i & E & _).
  exists tf. split; [exact E|]. split; [apply get_key_plain|].
  intros r Hr Hk. exact (get_key_minor threshold tf r Hr Hk).
Qed.

End Claims.
(* ================================================================== *)
(** ** The range of a rounded, clipped coefficient *)

Module NumpyRange.

Import FloatRound.
Local Open Scope float_scope.

Definition unit_range (c : float) : bool := (-1 <=? c) && (c <=? 1).

Lemma scale_3 : Numpy.float_of_Z (10 ^ Z.of_nat 3) = 1000.
Proof. reflexivity. Qed.

Lemma Prim2SF_1000 :
  Prim2SF 1000 = S754_finite false 8796093022208000 (-43).
Proof. reflexivity. Qed.

Lemma Prim2SF_one : Prim2SF 1 = S754_finite false 4503599627370496 (-52).
Proof. reflexivity. Qed.

Lemma Prim2SF_minus_one :
  Prim2SF (-1) = S754_finite true 4503599627370496 (-52).
Proof. reflexivity. Qed.

(** [np.clip] returns NaN or a value of [-1, 1]. *)
Lemma clip_range (c : float) :
  is_nan (Numpy.clip c) = true \/ unit_range (Numpy.clip c) = true.
Proof.
  unfold Numpy.clip. destruct (is_nan c) eqn:N; [left; exact N|].
  right. unfold unit_range.
  destruct (c <? -1) eqn:L1; [reflexivity|].
  destruct (1 <? c) eqn:L2; [reflexivity|].
  rewrite (ltb_false_leb c (-1) N eq_refl L1).
  rewrite (ltb_false_leb 1 c eq_refl N L2). reflexivity.
Qed.

(** A value of [-1, 1] is a zero or has magnitude at most [2^52 * 2^-52]. *)
Lemma unit_range_shape (x : float) :
  unit_range x = true ->
  match Prim2SF x with
  | S754_zero _ => True
  | S754_finite _ m e =>
      (e < -52 \/ (e = -52 /\ Zpos m <= 4503599627370496))%Z
  | _ => False
  end.
Proof.
  unfold unit_range. rewrite !leb_spec, Prim2SF_one, Prim2SF_minus_one.
  intros H. apply andb_prop in H. destruct H as [H1 H2].
  destruct (Prim2SF x) as [s|s| |s m e]; [exact I| | |].
  - destruct s; discriminate.
  - discriminate.
  - destruct s.
    + exact (SFleb_finite_neg _ _ _ _ H1).
    + exact (SFleb_finite_pos _ _ _ _ H2).
Qed.

(** A thousand times a value of [-1, 1] has magnitude at most 1000. *)
Lemma mul_1000_shape (x : float) :
  unit_range x = true ->
  match Prim2SF (x * 1000) with
  | S754_zero _ => True
  | S754_finite _ m e =>
      (e < -43 \/ (e = -43 /\ Zpos m <= 8796093022208000))%Z
  | _ => False
  end.
Proof.
  intros H. pose proof (unit_range_shape x H) as S.
  rewrite mul_spec, Prim2SF_1000.
  destruct (Prim2SF x) as [s|s| |s m e] eqn:E; try contradiction.
  - exact I.
  - cbn [SF64mul SFmul].
    pose proof (bounded_mantissa m e (valid_finite x _ _ _ E)) as Hm.
    assert (P : (Zpos m <= 2 ^ (- e))%Z).
    { destruct S as [S|[-> S]]; [|exact S].
      pose proof (Z.pow_le_mono_r 2 53 (- e) ltac:(lia) ltac:(lia)). lia. }
    pose proof (binary_round_aux_bound (xorb s false)
                  (m * 8796093022208000) (e + -43) 8796093022208000 (-43)
                  eq_refl ltac:(lia)) as R.
    replace (-43 - (e + -43))%Z with (- e)%Z in R by lia.
    specialize (R ltac:(rewrite Pos2Z.inj_mul; lia)).
    destruct (binary_round_aux prec emax (xorb s false)
                (Zpos (m * 8796093022208000)) (e + -43) loc_Exact)
      as [s'|s'| |s' m' e']; try contradiction; [exact I|].
    destruct R as [_ R]. lia.
Qed.

Lemma round_half_even_bound (m d B : Z) :
  (0 < d -> 0 <= m <= B * d ->
   0 <= Numpy.round_half_even m d <= B)%Z.
Proof.
  intros Hd Hm. unfold Numpy.round_half_even.
  pose proof (Z.div_mod m d ltac:(lia)) as Q.
  pose proof (Z.mod_pos_bound m d Hd) as R.
  assert (Q0 : (0 <= m / d)%Z) by (apply Z.div_pos; lia).
  assert (QB : (m / d <= B)%Z) by (apply Z.div_le_upper_bound; lia).
  destruct (Z.compare_spec (2 * (m mod d)) d) as [C|C|C].
  - assert (m / d < B)%Z by nia. destruct (Z.even (m / d)); lia.
  - lia.
  - assert (m / d < B)%Z by nia. lia.
Qed.

(** Every thousandth of [-1, 1], as binary64, lies in [-1, 1]. *)
Lemma thousandths_in_range :
  forallb (fun k => unit_range (Numpy.float_of_Z k / 1000) &&
                    unit_range (- Numpy.float_of_Z k / 1000))
          (map Z.of_nat (seq 0 1001)) = true.
Proof. vm_compute. reflexivity. Qed.

Lemma thousandth_in_range (k : Z) :
  (0 <= k <= 1000)%Z ->
  unit_range (Numpy.float_of_Z k / 1000) = true /\
  unit_range (- Numpy.float_of_Z k / 1000) = true.
Proof.
  intros Hk. apply andb_prop.
  apply (proj1 (forallb_forall _ _) thousandths_in_range k).
  apply in_map_iff. exists (Z.to_nat k). split; [lia|].
  apply in_seq. lia.
Qed.

(** [round(c, 3)] keeps NaN and keeps [-1, 1]. *)
Lemma round_3_nan (x : float) :
  is_nan x = true -> is_nan (Numpy.round x 3) = true.
Proof.
  rewrite !is_nan_spec. intros N. unfold Numpy.round. rewrite scale_3.
  assert (Ny : Prim2SF (x * 1000) = S754_nan)
    by (rewrite mul_spec, N; reflexivity).
  rewrite div_spec. unfold Numpy.rint. rewrite Ny, Ny. reflexivity.
Qed.

Lemma round_3_range (x : float) :
  unit_range x = true -> unit_range (Numpy.round x 3) = true.
Proof.
  intros H. pose proof (mul_1000_shape x H) as S.
  unfold Numpy.round. rewrite scale_3. unfold Numpy.rint.
  destruct (Prim2SF (x * 1000)) as [s|s| |s m e] eqn:E; try contradiction.
  - unfold unit_range. rewrite !leb_spec, div_spec, E, Prim2SF_1000.
    rewrite Prim2SF_one, Prim2SF_minus_one. reflexivity.
  - replace (0 <=? e)%Z with false by (symmetry; apply Z.leb_gt; lia).
    pose proof (bounded_mantissa m e (valid_finite _ _ _ _ E)) as Hm.
    assert (D : (0 < 2 ^ (- e))%Z) by (apply pow2_pos; lia).
    assert (K : (0 <= Numpy.round_half_even (Zpos m) (2 ^ (- e)) <= 1000)%Z).
    { apply round_half_even_bound; [exact D|]. split; [lia|].
      destruct S as [S|[-> S]].
      - pose proof (Z.pow_le_mono_r 2 44 (- e) ltac:(lia) ltac:(lia)). lia.
      - change (2 ^ (- -43))%Z with 8796093022208%Z. lia. }
    destruct (thousandth_in_range _ K) as [T1 T2].
    destruct s; assumption.
Qed.

(** A coefficient of the engine is NaN or a value of [-1, 1]. *)
Lemma coefficient_range (x y : list float) :
  let c := Numpy.round (Numpy.corrcoef x y) 3 in
  is_nan c = true \/ unit_range c = true.
Proof.
  cbv zeta. unfold Numpy.corrcoef.
  match goal with |- context [Numpy.clip ?z] => generalize z end.
  intros z. destruct (clip_range z) as [N|R].
  - left. apply round_3_nan. exact N.
  - right. apply round_3_range. exact R.
Qed.



End NumpyRange.

(* ================================================================== *)
(** ** The class with numpy's two calls *)

(** C5. The golden test: an energy vector equal to [MAJ_PROFILE], index 0
    on root C, has primary key "C major" with correlation 1.0 (within
    0.001). *)
Theorem C5_golden_major_profile :
  exists tf,
    Tonal_Fragment_of MAJ_PROFILE = Some tf /\
    key tf = "C major" /\
    bestcorr tf = 1%float /\
    (abs (bestcorr tf - 1) <=? 0.001)%float = true.
Proof.
  eexists. split; [vm_compute; reflexivity|].
  split; [reflexivity|]. split; reflexivity.
Qed.

(** C7. Every candidate correlation that is a number lies in [-1, 1]: the
    coefficient leaves [np.corrcoef] clipped to that interval and rounding
    to 3 digits keeps it there.  The only other value is the NaN of an
    undefined coefficient. *)
Theorem C7_correlations_within_unit_interval (chroma : list float) :
  List.length chroma = 12%nat ->
  exists tf,
    Tonal_Fragment_of chroma = Some tf /\
    List.length (key_dict tf) = 24%nat /\
    forall k c, In (k, c) (key_dict tf) -> is_nan c = false ->
      (-1 <=? c)%float = true /\ (c <=? 1)%float = true.
Proof.
  intros H. unfold Tonal_Fragment_of.
  destruct (init_spec Numpy.corrcoef Numpy.round chroma H)
    as (tf & i & E & _ & _ & Ed & _).
  exists tf. split; [exact E|]. split; [rewrite Ed; reflexivity|].
  intros k c Hin N. rewrite Ed in Hin. apply in_combine_r in Hin.
  unfold correlations in Hin. rewrite in_app_iff, !in_map_iff in Hin.
  assert (R : is_nan c = true \/ NumpyRange.unit_range c = true).
  { destruct Hin as [(r & <- & _)|(r & <- & _)];
      apply NumpyRange.coefficient_range. }
  destruct R as [R|R]; [congruence|].
  apply andb_prop in R. exact R.
Qed.

(** With the additions from left to right it is the model above. *)
Lemma corrcoef_by_fsum (x y : list float) :
  corrcoef_by Numpy.fsum Numpy.dot x y = Numpy.corrcoef x y.
Proof. reflexivity. Qed.


(** C1 fails on the all-zero energy vector: all 24 coefficients are NaN and
    the classifier answers "C major", from the constructor and from
    [get_key_with_context]. *)
Lemma C1_zero_chroma_is_labelled :
  let chroma := repeat 0%float 12 in
  ~ nan_is_reported chroma /\
  exists tf,
    Tonal_Fragment_of chroma = Some tf /\
    List.length (key_dict tf) = 24%nat /\
    forallb (fun kv => is_nan (snd kv)) (key_dict tf) = true /\
    key tf = "C major" /\ is_nan (bestcorr tf) = true /\
    altkey tf = None /\
    get_key_with_context true threshold_default tf =
      Some (("C major", bestcorr tf), tf) /\
    get_key_with_context false threshold_default tf =
      Some (("C major", bestcorr tf), tf).
Proof.
  cbv zeta.
  assert (E : exists tf, Tonal_Fragment_of (repeat 0%float 12) = Some tf /\
    List.length (key_dict tf) = 24%nat /\
    forallb (fun kv => is_nan (snd kv)) (key_dict tf) = true /\
    key tf = "C major" /\ is_nan (bestcorr tf) = true /\
    altkey tf = None /\
    get_key_with_context true threshold_default tf =
      Some (("C major", bestcorr tf), tf) /\
    get_key_with_context false threshold_default tf =
      Some (("C major", bestcorr tf), tf)).
  { eexists. split; [vm_compute; reflexivity|].
    repeat split; vm_compute; reflexivity. }
  split; [|exact E].
  destruct E as (tf & E & L & A & K & _). unfold nan_is_reported. rewrite E.
  intros R. apply R.
  - destruct (key_dict tf) as [|[k c] d]; [discriminate L|].
    exists k, c. simpl in A. apply andb_prop in A.
    split; [left; reflexivity | tauto].
  - rewrite K. vm_compute. tauto.
Qed.

(* ================================================================== *)
(** ** The theorems at concrete energy vectors *)

Ltac evaluate_init E :=
  let E' := fresh in
  pose proof E as E'; vm_compute in E'; injection E' as <-.

(** C1 at the all-zero vector: the first coefficient is NaN and the label
    is "C major". *)
Lemma C1_nan_is_labelled_C_major_witness :
  exists tf,
    Tonal_Fragment_of all_zero = Some tf /\
    is_nan (Numpy.round
              (Numpy.corrcoef MAJ_PROFILE (rotated all_zero 0)) 3) = true /\
    key tf = "C major" /\ is_nan (bestcorr tf) = true /\
    altkey tf = None /\ altbestcorr tf = None /\
    get_key_with_context true threshold_default tf =
      Some (("C major", bestcorr tf), tf).
Proof.
  destruct (C1_nan_is_labelled_C_major Numpy.corrcoef Numpy.round all_zero
              true threshold_default eq_refl) as (tf & E & _ & _ & Himp).
  assert (N : is_nan (Numpy.round
                (Numpy.corrcoef MAJ_PROFILE (rotated all_zero 0)) 3) = true)
    by (vm_compute; reflexivity).
  exists tf. split; [exact E|]. split; [exact N|]. exact (Himp N).
Defined.

(** C2 at the alternating vector: the six odd major roots and others tie at
    the maximum and "C# major", the first of them, is the primary key. *)
Lemma C2_primary_is_first_maximum_witness :
  exists tf i,
    Tonal_Fragment_of alternating = Some tf /\
    key tf = "C# major" /\ i = 1%nat /\
    nth_error (key_dict tf) 3 = Some ("D# major", bestcorr tf) /\
    nth_error (key_dict tf) i = Some (key tf, bestcorr tf) /\
    (forall j k c, nth_error (key_dict tf) j = Some (k, c) ->
       gt c (bestcorr tf) = false) /\
    (forall j k c, nth_error (key_dict tf) j = Some (k, c) ->
       (c =? bestcorr tf)%float = true -> (i <= j)%nat).
Proof.
  destruct (C2_primary_is_first_maximum Numpy.corrcoef Numpy.round
              alternating eq_refl) as (tf & i & E & _ & Hi & A & B & _).
  exists tf, i. split; [exact E|].
  assert (K : key tf = "C# major" /\
              nth_error (key_dict tf) 1 = Some (key tf, bestcorr tf) /\
              nth_error (key_dict tf) 3 = Some ("D# major", bestcorr tf)).
  { evaluate_init E. repeat split. }
  destruct K as (K1 & K2 & K3).
  assert (I1 : i = 1%nat).
  { assert (L1 : (i <= 1)%nat).
    { apply (B 1%nat (key tf) (bestcorr tf) K2).
      evaluate_init E. reflexivity. }
    destruct i as [|[|i]]; [|reflexivity|lia].
    exfalso. evaluate_init E. discriminate Hi. }
  split; [exact K1|]. split; [exact I1|]. split; [exact K3|].
  split; [exact Hi|]. split; [exact A | exact B].
Defined.

(** C3 at the C major scale: "A minor" is the first qualifying candidate. *)
Lemma C3_alternate_is_first_qualifying_witness :
  exists tf,
    Tonal_Fragment_of c_major_scale = Some tf /\
    key tf = "C major" /\
    exists i c,
      nth_error (key_dict tf) i = Some ("A minor", c) /\
      gt c (bestcorr tf * 0.9)%float = true /\
      ne c (bestcorr tf) = true /\
      (forall j k' c', (j < i)%nat ->
         nth_error (key_dict tf) j = Some (k', c') ->
         gt c' (bestcorr tf * 0.9)%float && ne c' (bestcorr tf) = false) /\
      altkey tf = Some "A minor" /\ altbestcorr tf = Some c.
Proof.
  destruct (C3_alternate_is_first_qualifying Numpy.corrcoef Numpy.round
              c_major_scale eq_refl) as (tf & E & _ & D & _).
  assert (K : key tf = "C major" /\ altkey tf = Some "A minor").
  { evaluate_init E. split; reflexivity. }
  destruct K as [K1 K2].
  exists tf. split; [exact E|]. split; [exact K1|].
  destruct D as [(D1 & _)|(i & k & c & Hn & Q1 & Q2 & Before & Ak & Ac)];
    [congruence|].
  assert (k = "A minor") as -> by congruence.
  exists i, c. repeat split; assumption.
Defined.

(** C4 at the C major scale: the primary is "C major", the relative minor
    "A minor" exceeds 0.9 of its correlation and is returned. *)
Lemma C4_relative_minor_preference_witness :
  exists tf,
    Tonal_Fragment_of c_major_scale = Some tf /\
    key tf = candidate_name 0 major /\
    relative_minor_root 0 = 9%nat /\
    get_key_with_context true threshold_default tf =
      Some (("A minor", 0.712%float), tf).
Proof.
  destruct (C4_relative_minor_preference Numpy.corrcoef Numpy.round
              c_major_scale 0 threshold_default eq_refl ltac:(lia))
    as (tf & E & _ & Himp).
  assert (K : key tf = candidate_name 0 major)
    by (evaluate_init E; reflexivity).
  destruct (Himp K) as (_ & _ & G).
  exists tf. split; [exact E|]. split; [exact K|]. split; [reflexivity|].
  rewrite G. evaluate_init E. vm_compute. reflexivity.
Defined.


(** C7 at the C major scale: the coefficient of "C major" is a number and
    lies in [-1, 1]. *)
Lemma C7_correlations_within_unit_interval_witness :
  exists tf c,
    Tonal_Fragment_of c_major_scale = Some tf /\
    In ("C major", c) (key_dict tf) /\ is_nan c = false /\
    (-1 <=? c)%float = true /\ (c <=? 1)%float = true.
Proof.
  destruct (C7_correlations_within_unit_interval c_major_scale eq_refl)
    as (tf & E & _ & R).
  assert (K : exists c, In ("C major", c) (key_dict tf) /\ is_nan c = false).
  { evaluate_init E. eexists. split; [left; reflexivity | reflexivity]. }
  destruct K as (c & Hin & N).
  exists tf, c. split; [exact E|]. split; [exact Hin|]. split; [exact N|].
  exact (R _ _ Hin N).
Defined.

(** C8 at the C major scale, where the call returns the relative minor. *)
Lemma C8_get_key_with_context_frame_witness :
  exists tf result,
    Tonal_Fragment_of c_major_scale = Some tf /\
    get_key_with_context true threshold_default tf = Some (result, tf) /\
    fst result = "A minor" /\ key tf = "C major".
Proof.
  destruct (C8_get_key_with_context_frame Numpy.corrcoef Numpy.round
              c_major_scale true threshold_default eq_refl)
    as (tf & result & tf' & E & G & -> & _).
  exists tf, result. split; [exact E|]. split; [exact G|].
  evaluate_init E. vm_compute in G. injection G as <-. split; reflexivity.
Defined.

(** C9 at the C major scale: the alternate "A minor" lies strictly between
    0.9 of the primary correlation and the primary correlation. *)
Lemma C9_alternate_strictly_between_witness :
  exists tf c,
    Tonal_Fragment_of c_major_scale = Some tf /\
    altkey tf = Some "A minor" /\ altbestcorr tf = Some c /\
    (bestcorr tf * 0.9 <? c)%float = true /\
    (c <? bestcorr tf)%float = true.
Proof.
  destruct (C9_alternate_strictly_between Numpy.corrcoef Numpy.round
              c_major_scale eq_refl) as (tf & E & B & _).
  assert (K : altkey tf = Some "A minor") by (evaluate_init E; reflexivity).
  destruct (B _ K) as (c & Hc & _ & B1 & B2).
  exists tf, c. repeat split; assumption.
Defined.

(** C10 at [MIN_PROFILE]: the primary key "C minor" is returned as it is. *)
Lemma C10_primary_returned_unchanged_witness :
  exists tf,
    Tonal_Fragment_of MIN_PROFILE = Some tf /\
    key tf = candidate_name 0 minor /\
    get_key_with_context false threshold_default tf =
      Some ((key tf, bestcorr tf), tf) /\
    get_key_with_context true threshold_default tf =
      Some ((key tf, bestcorr tf), tf).
Proof.
  destruct (C10_primary_returned_unchanged Numpy.corrcoef Numpy.round
              MIN_PROFILE threshold_default eq_refl) as (tf & E & P & M).
  assert (K : key tf = candidate_name 0 minor)
    by (evaluate_init E; reflexivity).
  exists tf. split; [exact E|]. split; [exact K|]. split; [exact P|].
  exact (M 0%nat ltac:(lia) K).
Defined.

(* ================================================================== *)
(** ** Further properties of the classifier *)

Lemma dict_get_candidate (vals : list float) (r : nat) (m : mode) :
  List.length vals = 24%nat -> (r < 12)%nat ->
  dict_get (combine candidate_names vals) (candidate_name r m) =
  nth_error vals (match m with major => r | minor => 12 + r end).
Proof.
  intros H Hr. twenty_four vals H.
  destruct m; (do 12 (destruct r as [|r]; [reflexivity|])); lia.
Qed.

Lemma rotated_rotated (chroma : list float) (t r : nat) :
  List.length chroma = 12%nat -> (t < 12)%nat -> (r < 12)%nat ->
  rotated (rotated chroma t) r = rotated chroma ((r + t) mod 12).
Proof.
  intros H Ht Hr.
  do 12 (destruct chroma as [|? chroma]; [discriminate H|]).
  destruct chroma; [clear H | discriminate H].
  do 12 (destruct t as [|t];
    [do 12 (destruct r as [|r]; [reflexivity|]); lia|]).
  lia.
Qed.

Section Further.

Variable corrcoef : list float -> list float -> float.
Variable round : float -> nat -> float.

(** The stored correlation of a candidate. *)
Lemma stored_correlation (chroma : list float) (tf : Tonal_Fragment)
  (r : nat) (m : mode) :
  List.length chroma = 12%nat -> (r < 12)%nat ->
  key_dict tf = combine candidate_names (correlations corrcoef round chroma) ->
  dict_get (key_dict tf) (candidate_name r m) =
  Some (round (corrcoef
                 match m with major => MAJ_PROFILE | minor => MIN_PROFILE end
                 (rotated chroma r)) 3).
Proof.
  intros H Hr Ed. rewrite Ed.
  rewrite (dict_get_candidate _ r m (correlations_length _ _ chroma) Hr).
  destruct (correlations_nth corrcoef round chroma r Hr) as [Hmaj Hmin].
  destruct m; assumption.
Qed.

(** X1. Transposition.  When the twelve energies are moved [t] pitch
    classes down, [chroma'[m] = chroma[(m + t) mod 12]], every candidate
    gets the correlation that the candidate [t] roots higher, of the same
    mode, had before. *)
Theorem transposed_energies_shift_the_candidates (chroma : list float)
  (t : nat) :
  List.length chroma = 12%nat -> (t < 12)%nat ->
  exists tf tf',
    __init__ corrcoef round chroma = Some tf /\
    __init__ corrcoef round (rotated chroma t) = Some tf' /\
    forall r m, (r < 12)%nat ->
      dict_get (key_dict tf') (candidate_name r m) =
      dict_get (key_dict tf) (candidate_name ((r + t) mod 12) m).
Proof.
  intros H Ht.
  destruct (init_spec corrcoef round chroma H)
    as (tf & i & E & _ & _ & Ed & _).
  destruct (init_spec corrcoef round (rotated chroma t) eq_refl)
    as (tf' & i' & E' & _ & _ & Ed' & _).
  exists tf, tf'. split; [exact E|]. split; [exact E'|].
  intros r m Hr.
  assert (Hs : ((r + t) mod 12 < 12)%nat)
    by (apply Nat.mod_upper_bound; discriminate).
  rewrite (stored_correlation (rotated chroma t) tf' r m eq_refl Hr Ed').
  rewrite (stored_correlation chroma tf _ m H Hs Ed).
  rewrite (rotated_rotated chroma t r H Ht Hr). reflexivity.
Qed.

(** X2. The alternate is another candidate: [altkey] and [altbestcorr] are
    set together or not at all, and a stored alternate is a label other
    than the primary key, with the number the dictionary holds for it. *)
Theorem alternate_is_another_candidate (chroma : list float) :
  List.length chroma = 12%nat ->
  exists tf,
    __init__ corrcoef round chroma = Some tf /\
    (altkey tf = None <-> altbestcorr tf = None) /\
    forall k, altkey tf = Some k ->
      k <> key tf /\
      exists c, altbestcorr tf = Some c /\
        dict_get (key_dict tf) k = Some c /\ is_nan c = false.
Proof.
  intros H.
  destruct (init_spec corrcoef round chroma H)
    as (tf & i & E & _ & _ & Ed & Hi & _ & _ & _ & F).
  assert (ND : NoDup (map fst (key_dict tf))).
  { rewrite Ed, map_fst_combine by reflexivity. exact candidate_names_NoDup. }
  exists tf. split; [exact E|].
  destruct (find (fun kv => qualifies (bestcorr tf) (snd kv)) (key_dict tf))
    as [[k0 c0]|] eqn:Ef; destruct F as [F1 F2]; simpl in F1, F2.
  - split; [split; congruence|].
    intros k Hk. assert (k0 = k) as -> by congruence.
    apply find_some in Ef. destruct Ef as [Hin Q]. simpl in Q.
    unfold qualifies, gt, ne in Q. apply andb_prop in Q.
    destruct Q as [Q1 Q2]. apply negb_true_iff in Q2.
    destruct (ltb_not_nan _ _ Q1) as [_ Nc].
    pose proof (dict_get_In _ _ _ ND Hin) as G.
    split.
    + intros ->. rewrite (dict_get_nth _ ND _ _ _ Hi) in G.
      injection G as G. rewrite G in Q2.
      rewrite (eqb_refl_not_nan _ Nc) in Q2. discriminate.
    + exists c0. split; [exact F2|]. split; [exact G | exact Nc].
  - split; [split; trivial|]. intros k Hk. congruence.
Qed.

(** X3. NaN reaches the primary only from the first candidate: when the
    coefficient of "C major" is a number, [bestcorr] is a number and is at
    least every coefficient that is a number; NaN coefficients further on
    are passed over. *)
Theorem later_nan_is_passed_over (chroma : list float) :
  List.length chroma = 12%nat ->
  exists tf,
    __init__ corrcoef round chroma = Some tf /\
    (is_nan (round (corrcoef MAJ_PROFILE (rotated chroma 0)) 3) = false ->
     is_nan (bestcorr tf) = false /\
     forall k c, In (k, c) (key_dict tf) -> is_nan c = false ->
       (c <=? bestcorr tf)%float = true).
Proof.
  intros H.
  destruct (init_spec corrcoef round chroma H)
    as (tf & i & E & _ & _ & Ed & Hi & A & B & _ & _).
  exists tf. split; [exact E|]. intros N0.
  assert (H0 : nth_error (key_dict tf) 0 =
               Some ("C major",
                     round (corrcoef MAJ_PROFILE (rotated chroma 0)) 3)).
  { rewrite Ed. reflexivity. }
  assert (Nb : is_nan (bestcorr tf) = false).
  { destruct i as [|i].
    - rewrite H0 in Hi. injection Hi as _ <-. exact N0.
    - destruct (B 0%nat _ ltac:(lia) H0) as [N|L].
      + simpl in N. congruence.
      + simpl in L. exact (proj2 (ltb_not_nan _ _ L)). }
  split; [exact Nb|].
  intros k c Hin Nc. apply In_nth_error in Hin. destruct Hin as [j Hj].
  apply ltb_false_leb; [exact Nb | exact Nc | exact (A j (k, c) Hj)].
Qed.

(** X4. Whatever [prefer_minor] and [threshold] are, [get_key_with_context]
    returns a label together with the number the dictionary holds for it:
    the primary key, or, for a major primary key, its relative minor. *)
Theorem returned_pair_is_a_dictionary_item (chroma : list float)
  (prefer_minor : bool) (threshold : float) :
  List.length chroma = 12%nat ->
  exists tf k c,
    __init__ corrcoef round chroma = Some tf /\
    get_key_with_context prefer_minor threshold tf = Some ((k, c), tf) /\
    dict_get (key_dict tf) k = Some c /\
    (k = key tf \/
     exists r, (r < 12)%nat /\ key tf = candidate_name r major /\
               k = candidate_name (relative_minor_root r) minor).
Proof.
  intros H.
  destruct (init_spec corrcoef round chroma H)
    as (tf & i & E & _ & _ & Ed & Hi & _).
  assert (ND : NoDup (map fst (key_dict tf))).
  { rewrite Ed, map_fst_combine by reflexivity. exact candidate_names_NoDup. }
  pose proof (dict_get_nth _ ND _ _ _ Hi) as Gp.
  exists tf.
  destruct prefer_minor;
    [|exists (key tf), (bestcorr tf); split; [exact E|];
      split; [apply get_key_plain|]; split; [exact Gp | left; reflexivity]].
  destruct (candidate_names_In _ (key_is_candidate tf _ i Ed Hi))
    as (r & [|] & Hr & Hk).
  - destruct (get_key_major threshold tf _ r Ed
                (correlations_length corrcoef round chroma) Hr Hk)
      as (mc & _ & Hg & Hres).
    destruct (gt mc (bestcorr tf * threshold)%float).
    + exists (candidate_name (relative_minor_root r) minor), mc.
      split; [exact E|]. split; [exact Hres|]. split; [exact Hg|].
      right. exists r. repeat split; assumption.
    + exists (key tf), (bestcorr tf). split; [exact E|].
      split; [exact Hres|]. split; [exact Gp | left; reflexivity].
  - exists (key tf), (bestcorr tf). split; [exact E|].
    split; [exact (get_key_minor threshold tf r Hr Hk)|].
    split; [exact Gp | left; reflexivity].
Qed.

(** X5. With the default threshold a primary correlation that is zero or
    negative is never replaced by the relative minor. *)
Theorem nonpositive_primary_is_kept (chroma : list float) :
  List.length chroma = 12%nat ->
  exists tf,
    __init__ corrcoef round chroma = Some tf /\
    ((bestcorr tf <=? 0)%float = true ->
     get_key_with_context true threshold_default tf =
     Some ((key tf, bestcorr tf), tf)).
Proof.
  intros H.
  destruct (init_spec corrcoef round chroma H)
    as (tf & i & E & _ & _ & Ed & Hi & A & _).
  exists tf. split; [exact E|]. intros Neg.
  destruct (candidate_names_In _ (key_is_candidate tf _ i Ed Hi))
    as (r & [|] & Hr & Hk); [|exact (get_key_minor _ tf r Hr Hk)].
  destruct (get_key_major threshold_default tf _ r Ed
              (correlations_length corrcoef round chroma) Hr Hk)
    as (mc & _ & Hg & Hres).
  rewrite Hres.
  destruct (gt mc (bestcorr tf * threshold_default)%float) eqn:G;
    [exfalso | reflexivity].
  unfold gt, threshold_default in G.
  destruct (ltb_not_nan _ _ G) as [_ Nmc].
  destruct (leb_not_nan _ _ Neg) as [Nb _].
  apply dict_get_Some_In, In_nth_error in Hg. destruct Hg as [j Hj].
  pose proof (ltb_false_leb _ _ Nb Nmc (A j _ Hj)) as Le.
  pose proof (ltb_leb_trans _ _ _ G Le) as Lt.
  rewrite (FloatRound.mul_09_not_below _ Neg) in Lt. discriminate.
Qed.

(** X6. [print_key] prints the detected key first and, exactly when an
    alternate is stored, the line "also possible".  When the detected key
    is not the stored primary key, its correlation is above 0.9 of the
    primary's and at most the primary's, and unless the two are equal the
    line "also possible" is printed too. *)
Theorem print_key_lines (chroma : list float) :
  List.length chroma = 12%nat ->
  exists tf k c,
    __init__ corrcoef round chroma = Some tf /\
    print_key tf =
      Some (Detected_key k c ::
            match altkey tf with
            | Some a => [also_possible a (altbestcorr tf)]
            | None => []
            end, tf) /\
    (k <> key tf ->
     (bestcorr tf * 0.9 <? c)%float = true /\
     (c <=? bestcorr tf)%float = true /\
     ((c =? bestcorr tf)%float = false -> altkey tf <> None)).
Proof.
  intros H.
  destruct (init_spec corrcoef round chroma H)
    as (tf & i & E & _ & _ & Ed & Hi & A & _ & _ & F).
  exists tf. unfold print_key.
  destruct (candidate_names_In _ (key_is_candidate tf _ i Ed Hi))
    as (r & [|] & Hr & Hk).
  - destruct (get_key_major threshold_default tf _ r Ed
                (correlations_length corrcoef round chroma) Hr Hk)
      as (mc & _ & Hg & Hres).
    rewrite Hres.
    destruct (gt mc (bestcorr tf * threshold_default)%float) eqn:G.
    + exists (candidate_name (relative_minor_root r) minor), mc.
      split; [exact E|]. split; [reflexivity|]. intros _.
      unfold gt, threshold_default in G. split; [exact G|].
      destruct (ltb_not_nan _ _ G) as [Nm Nmc].
      assert (Nb : is_nan (bestcorr tf) = false).
      { destruct (is_nan (bestcorr tf)) eqn:N; [|reflexivity].
        rewrite (mul_nan_l _ 0.9%float N) in Nm. discriminate. }
      pose proof (dict_get_Some_In _ _ _ Hg) as Hin.
      split.
      * apply In_nth_error in Hin. destruct Hin as [j Hj].
        exact (ltb_false_leb _ _ Nb Nmc (A j _ Hj)).
      * intros Q Halt.
        assert (X : qualifies (bestcorr tf) mc = true).
        { unfold qualifies, gt, ne. rewrite G, Q. reflexivity. }
        destruct (find (fun kv => qualifies (bestcorr tf) (snd kv))
                    (key_dict tf)) as [kv|] eqn:Ef.
        -- destruct F as [F1 _]. congruence.
        -- pose proof (find_none _ _ Ef _ Hin) as Y. simpl in Y. congruence.
    + exists (key tf), (bestcorr tf). split; [exact E|].
      split; [reflexivity|]. intros N. congruence.
  - rewrite (get_key_minor threshold_default tf r Hr Hk).
    exists (key tf), (bestcorr tf). split; [exact E|].
    split; [reflexivity|]. intros N. congruence.
Qed.

End Further.

(* ================================================================== *)
(** ** The reports *)

Lemma insert_item_permutation (x : string * float) (l : dict) :
  Permutation (insert_item x l) (x :: l).
Proof.
  induction l as [|y l IH]; simpl; [apply Permutation_refl|].
  destruct (tuple_lt x y); [apply Permutation_refl|].
  apply perm_trans with (y :: x :: l); [|apply perm_swap].
  apply perm_skip. exact IH.
Qed.

Lemma sorted_permutation (items : dict) : Permutation (sorted items) items.
Proof.
  unfold sorted.
  assert (G : forall acc,
            Permutation
              (fold_left (fun acc x => insert_item x acc) items acc)
              (items ++ acc)).
  { induction items as [|x items IH]; intros acc; simpl;
      [apply Permutation_refl|].
    apply perm_trans with (items ++ insert_item x acc); [apply IH|].
    apply perm_trans with (items ++ x :: acc).
    - apply Permutation_app_head. apply insert_item_permutation.
    - apply Permutation_sym. apply Permutation_middle. }
  specialize (G []). rewrite app_nil_r in G. exact G.
Qed.

Lemma max_list_In (l : list float) (m : float) :
  max_list l = Some m -> In m l.
Proof.
  destruct l as [|x l]; simpl; [discriminate|]. intros [= <-].
  revert x. induction l as [|y l IH]; intros x; simpl; [left; reflexivity|].
  destruct (gt y x).
  - destruct (IH y) as [<-|Hin]; [right; left; reflexivity|].
    right. right. exact Hin.
  - destruct (IH x) as [<-|Hin]; [left; reflexivity|].
    right. right. exact Hin.
Qed.

Module FloatDiv.

Import FloatOrder.
Local Open Scope float_scope.

(** A positive finite number is a finite [spec_float] of positive sign. *)
Lemma positive_finite_shape (x : float) :
  (0 <? x) = true -> (x <? infinity) = true ->
  exists m e, Prim2SF x = S754_finite false m e.
Proof.
  rewrite !ltb_spec. change (Prim2SF 0) with (S754_zero false).
  change (Prim2SF infinity) with (S754_infinity false).
  destruct (Prim2SF x) as [s|s| |s m e]; unfold SFltb, SFcompare.
  - discriminate.
  - destruct s; discriminate.
  - discriminate.
  - destruct s; [discriminate|]. intros _ _. exists m, e. reflexivity.
Qed.

Lemma div_eucl_shifted (m : positive) :
  Z.div_eucl (Z.shiftl (Zpos m) 53) (Zpos m) = ((2 ^ 53)%Z, 0%Z).
Proof.
  rewrite Z.shiftl_mul_pow2 by lia.
  pose proof (Z.div_mul (2 ^ 53) (Zpos m) ltac:(lia)) as Q.
  pose proof (Z.mod_mul (2 ^ 53) (Zpos m) ltac:(lia)) as R.
  rewrite (Z.mul_comm (Zpos m)).
  unfold Z.div, Z.modulo in Q, R.
  destruct (Z.div_eucl (2 ^ 53 * Zpos m) (Zpos m)) as [q r].
  congruence.
Qed.

(** A positive finite number divided by itself is exactly 1. *)
Lemma div_self (x : float) :
  (0 <? x) = true -> (x <? infinity) = true -> x / x = 1.
Proof.
  intros H0 H1. destruct (positive_finite_shape x H0 H1) as (m & e & E).
  apply Prim2SF_inj. rewrite div_spec, E.
  unfold SF64div, SFdiv, SFdiv_core_binary.
  rewrite !Z.sub_diag.
  change (Z.min (fexp prec emax 0) 0) with (-53)%Z.
  change (0 - -53)%Z with 53%Z. cbv iota.
  rewrite div_eucl_shifted.
  replace (new_location (Zpos m) 0) with loc_Exact
    by (unfold new_location; destruct (Z.even (Zpos m)); reflexivity).
  reflexivity.
Qed.

(** Zero divided by zero is NaN. *)
Lemma div_zero_zero (v x : float) :
  (v =? 0) = true -> (x =? 0) = true -> is_nan (v / x) = true.
Proof.
  rewrite !eqb_spec, is_nan_spec, div_spec.
  change (Prim2SF 0) with (S754_zero false).
  destruct (Prim2SF v) as [s|[|]| |[|] m e]; unfold SFeqb, SFcompare;
    try discriminate.
  destruct (Prim2SF x) as [s'|[|]| |[|] m' e']; try discriminate.
  reflexivity.
Qed.

End FloatDiv.

Ltac twelve_energies chroma H :=
  do 12 (destruct chroma as [|? chroma]; [discriminate H|]);
  destruct chroma; [clear H | discriminate H].

Section Reports.

Variable corrcoef : list float -> list float -> float.
Variable round : float -> nat -> float.

(** X7. [corr_table] lists every item of the candidate dictionary once, in
    the order of the labels as strings ("A major", "A minor", "A# major",
    ..., "G# minor"), whatever the correlations are, NaN included. *)
Theorem corr_table_rows (chroma : list float) :
  List.length chroma = 12%nat ->
  exists tf,
    __init__ corrcoef round chroma = Some tf /\
    Permutation (corr_table tf) (key_dict tf) /\
    map fst (corr_table tf) =
    ["A major"; "A minor"; "A# major"; "A# minor"; "B major"; "B minor";
     "C major"; "C minor"; "C# major"; "C# minor"; "D major"; "D minor";
     "D# major"; "D# minor"; "E major"; "E minor"; "F major"; "F minor";
     "F# major"; "F# minor"; "G major"; "G minor"; "G# major"; "G# minor"].
Proof.
  intros H.
  destruct (init_spec corrcoef round chroma H)
    as (tf & i & E & _ & _ & Ed & _).
  exists tf. split; [exact E|]. split; [apply sorted_permutation|].
  unfold corr_table. rewrite Ed.
  pose proof (correlations_length corrcoef round chroma) as Hl.
  set (vals := correlations corrcoef round chroma) in *. clearbody vals.
  twenty_four vals Hl. vm_compute. reflexivity.
Qed.

(** X8. [print_chroma] prints the twelve pitches in the order of [PITCHES],
    each with its energy divided by the greatest energy; when that greatest
    energy is a positive finite number, its own row shows exactly 1. *)
Theorem print_chroma_rows (chroma : list float) :
  List.length chroma = 12%nat ->
  exists tf rows chroma_max,
    __init__ corrcoef round chroma = Some tf /\
    max_list chroma = Some chroma_max /\
    print_chroma tf = Some rows /\
    map fst rows = PITCHES /\
    map snd rows = map (fun v => (v / chroma_max)%float) chroma /\
    ((0 <? chroma_max)%float = true ->
     (chroma_max <? infinity)%float = true ->
     exists i p, nth_error chroma i = Some chroma_max /\
                 nth_error rows i = Some (p, 1%float)).
Proof.
  intros H.
  destruct (init_spec corrcoef round chroma H)
    as (tf & i & E & Ec & Ef & _).
  destruct (max_list chroma) as [mx|] eqn:Em;
    [|destruct chroma; discriminate].
  exists tf, (map (fun item => (fst item, (snd item / mx)%float))
                  (combine PITCHES chroma)), mx.
  split; [exact E|]. split; [reflexivity|].
  split; [unfold print_chroma; rewrite Ec, Ef, Em; reflexivity|].
  assert (S : map fst (map (fun item : string * float =>
                              (fst item, (snd item / mx)%float))
                         (combine PITCHES chroma)) = PITCHES /\
              map snd (map (fun item : string * float =>
                              (fst item, (snd item / mx)%float))
                         (combine PITCHES chroma)) =
              map (fun v => (v / mx)%float) chroma).
  { clear - H. twelve_energies chroma H. split; reflexivity. }
  destruct S as [S1 S2]. split; [exact S1|]. split; [exact S2|].
  intros P0 P1.
  destruct (In_nth_error _ _ (max_list_In _ _ Em)) as [j Hj].
  assert (Hp : exists p, nth_error PITCHES j = Some p).
  { assert (L : (j < 12)%nat)
      by (rewrite <- H; apply nth_error_Some; congruence).
    destruct (nth_error PITCHES j) eqn:Ep; [eauto|].
    apply nth_error_None in Ep. simpl in Ep. lia. }
  destruct Hp as [p Hp]. exists j, p. split; [exact Hj|].
  rewrite nth_error_map.
  assert (C : nth_error (combine PITCHES chroma) j = Some (p, mx)).
  { clear - Hp Hj. revert j Hp Hj. generalize PITCHES.
    induction chroma as [|c chroma IH]; intros [|q l] [|j] Hp Hj;
      simpl in *; try discriminate.
    - congruence.
    - eapply IH; eauto. }
  rewrite C. simpl. rewrite (FloatDiv.div_self mx P0 P1). reflexivity.
Qed.

(** X9. When the greatest energy is zero, the row of every pitch whose
    energy is zero is NaN: a silent excerpt prints no prominence at all. *)
Theorem print_chroma_of_silence (chroma : list float) :
  List.length chroma = 12%nat ->
  exists tf rows chroma_max,
    __init__ corrcoef round chroma = Some tf /\
    max_list chroma = Some chroma_max /\
    print_chroma tf = Some rows /\
    ((chroma_max =? 0)%float = true ->
     forall i v p c,
       nth_error chroma i = Some v -> (v =? 0)%float = true ->
       nth_error rows i = Some (p, c) -> is_nan c = true).
Proof.
  intros H.
  destruct (init_spec corrcoef round chroma H)
    as (tf & i & E & Ec & Ef & _).
  destruct (max_list chroma) as [mx|] eqn:Em;
    [|destruct chroma; discriminate].
  exists tf, (map (fun item => (fst item, (snd item / mx)%float))
                  (combine PITCHES chroma)), mx.
  split; [exact E|]. split; [reflexivity|].
  split; [unfold print_chroma; rewrite Ec, Ef, Em; reflexivity|].
  intros Z0 j v p c Hv Zv Hr.
  rewrite nth_error_map in Hr.
  destruct (nth_error (combine PITCHES chroma) j) as [[q w]|] eqn:C;
    [|discriminate].
  simpl in Hr. injection Hr as _ <-.
  assert (w = v) as ->.
  { clear - C Hv. revert j C Hv. generalize PITCHES.
    induction chroma as [|c chroma IH]; intros [|q' l] [|j] C Hv;
      simpl in *; try discriminate.
    - congruence.
    - eapply IH; eauto. }
  exact (FloatDiv.div_zero_zero v mx Zv Z0).
Qed.

End Reports.

(* ================================================================== *)
(** ** The front of the constructor *)

Lemma adjust_index_bounds (n i : Z) :
  (0 <= n -> 0 <= adjust_index n i <= n)%Z.
Proof.
  intros Hn. unfold adjust_index. destruct (Z.ltb_spec i 0); lia.
Qed.

Section ConstructorFacts.

Variable time_to_samples : float -> Z -> Z.
Variable chroma_cqt : list float -> Z -> list (list float).
Variable np_sum : list float -> float.
Variable np_corrcoef : list float -> list float -> float.
Variable round : float -> nat -> float.

Lemma sum_rows_enough (rows : list (list float)) :
  (12 <= List.length rows)%nat ->
  sum_rows np_sum rows = Some (map np_sum (firstn 12 rows)).
Proof.
  intros H.
  do 12 (destruct rows as [|? rows]; [simpl in H; lia|]). reflexivity.
Qed.

Lemma sum_rows_short (rows : list (list float)) :
  (List.length rows < 12)%nat -> sum_rows np_sum rows = None.
Proof.
  intros H.
  do 12 (destruct rows as [|? rows]; [reflexivity|]). simpl in H. lia.
Qed.

(** X10. The analysed segment is one piece of the waveform: the samples
    before it and after it are left out; an omitted start begins at the
    first sample, an omitted end runs to the last, and with neither bound
    the whole waveform is analysed. *)
Theorem y_segment_is_a_piece (waveform : list float) (sr : Z)
  (tstart tend : option float) :
  exists before after,
    waveform =
      before ++ y_segment time_to_samples waveform sr tstart tend ++ after /\
    (tstart = None -> before = []) /\
    (tend = None -> after = []) /\
    y_segment time_to_samples waveform sr None None = waveform.
Proof.
  assert (W : forall (l : list float), slice l None None = l).
  { intros l. unfold slice. rewrite Z.sub_0_r, Nat2Z.id. simpl.
    apply firstn_all. }
  unfold y_segment, slice.
  set (n := Z.of_nat (List.length waveform)).
  set (a := match sample_bound time_to_samples tstart sr with
            | None => 0%Z | Some i => adjust_index n i end).
  set (b := match sample_bound time_to_samples tend sr with
            | None => n | Some i => adjust_index n i end).
  assert (Hn : (0 <= n)%Z) by (unfold n; lia).
  assert (Ha : (0 <= a <= n)%Z).
  { unfold a. destruct (sample_bound time_to_samples tstart sr);
      [apply adjust_index_bounds; exact Hn | lia]. }
  exists (firstn (Z.to_nat a) waveform),
         (skipn (Z.to_nat (b - a)) (skipn (Z.to_nat a) waveform)).
  split.
  { rewrite (firstn_skipn (Z.to_nat (b - a))).
    symmetry. apply firstn_skipn. }
  split.
  { intros ->. reflexivity. }
  split.
  { intros ->. unfold b. simpl. apply skipn_all2.
    rewrite length_skipn. unfold n. lia. }
  exact (W waveform).
Qed.

(** X11. A chromagram of fewer than twelve rows makes the constructor raise;
    with twelve rows or more it returns an instance whose energies are the
    sums of the first twelve rows, and further rows are never read. *)
Theorem constructor_reads_twelve_rows (waveform : list float) (sr : Z)
  (tstart tend : option float) :
  let rows :=
    chroma_cqt (y_segment time_to_samples waveform sr tstart tend) sr in
  let new := Tonal_Fragment_new time_to_samples chroma_cqt np_sum
               np_corrcoef round waveform sr tstart tend in
  ((List.length rows < 12)%nat -> new = None) /\
  ((12 <= List.length rows)%nat ->
   exists tf, new = Some tf /\
     chroma_vals tf = map np_sum (firstn 12 rows) /\
     List.length (key_dict tf) = 24%nat).
Proof.
  cbv zeta. unfold Tonal_Fragment_new.
  set (rows := chroma_cqt
                 (y_segment time_to_samples waveform sr tstart tend) sr).
  split.
  - intros H. rewrite (sum_rows_short rows H). reflexivity.
  - intros H. rewrite (sum_rows_enough rows H).
    assert (L : List.length (map np_sum (firstn 12 rows)) = 12%nat).
    { rewrite length_map, length_firstn. lia. }
    destruct (init_spec np_corrcoef round _ L)
      as (tf & i & E & Ec & _ & Ed & _).
    exists tf. split; [exact E|]. split; [exact Ec|].
    rewrite Ed. reflexivity.
Qed.

End ConstructorFacts.

(** X12. Silence is labelled: when each of the first twelve rows of the
    chromagram sums to zero (an empty window, a silent excerpt), all the
    energies are zero, every coefficient is NaN, and the instance reports the
    key "C major" with a NaN correlation and no alternate. *)
Theorem silence_is_labelled_C_major
  (time_to_samples : float -> Z -> Z)
  (chroma_cqt : list float -> Z -> list (list float))
  (np_sum : list float -> float)
  (waveform : list float) (sr : Z) (tstart tend : option float) :
  let rows :=
    chroma_cqt (y_segment time_to_samples waveform sr tstart tend) sr in
  (12 <= List.length rows)%nat ->
  (forall row, In row (firstn 12 rows) -> np_sum row = 0%float) ->
  exists tf,
    Tonal_Fragment_new time_to_samples chroma_cqt np_sum
      Numpy.corrcoef Numpy.round waveform sr tstart tend = Some tf /\
    chroma_vals tf = all_zero /\
    forallb (fun kv => is_nan (snd kv)) (key_dict tf) = true /\
    key tf = "C major" /\ is_nan (bestcorr tf) = true /\
    altkey tf = None /\ altbestcorr tf = None.
Proof.
  cbv zeta. intros H Z0. unfold Tonal_Fragment_new.
  rewrite (sum_rows_enough np_sum _ H).
  assert (E : map np_sum
                (firstn 12
                   (chroma_cqt
                      (y_segment time_to_samples waveform sr tstart tend)
                      sr)) = all_zero).
  { revert H Z0.
    generalize (chroma_cqt
                  (y_segment time_to_samples waveform sr tstart tend) sr).
    intros rows H Z0.
    do 12 (destruct rows as [|? rows]; [simpl in H; lia|]).
    cbn [firstn] in *. cbn [map].
    repeat rewrite Z0 by (simpl; tauto). reflexivity. }
  rewrite E. eexists. split; [vm_compute; reflexivity|].
  repeat split.
Qed.

(* ================================================================== *)
(** ** Labels *)

(** X13. A label is read back as it was formed: for each of the 24
    candidates, the first word of the label is the pitch name, its position
    in [PITCHES] is the root, and the test ['major' in key] holds exactly
    for the major candidates, sharps included. *)
Theorem label_is_read_back (r : nat) (m : mode) :
  (r < 12)%nat ->
  exists pitch,
    nth_error PITCHES r = Some pitch /\
    nth_error (split (candidate_name r m)) 0 = Some pitch /\
    index pitch PITCHES = Some r /\
    str_in "major" (candidate_name r m) =
      match m with major => true | minor => false end.
Proof.
  intros Hr.
  destruct m;
    (do 12 (destruct r as [|r];
       [eexists; split; [reflexivity|]; repeat split|])); lia.
Qed.

(* ================================================================== *)
(** ** The further properties at concrete inputs *)

(** Twelve equal energies: in binary64 the mean is not the common value and
    every coefficient comes out as a zero, not as NaN. *)
Definition all_tenth : list float := repeat 0.1%float 12.

(** A chromagram of twelve rows without a frame. *)
Definition no_frames (segment : list float) (sr : Z) : list (list float) :=
  repeat [] 12.

Definition start_of_file (t : float) (sr : Z) : Z := 0%Z.

(** X1 at the C major scale moved 7 pitch classes: "C major" then has the
    correlation "G major" had. *)
Lemma transposed_energies_shift_the_candidates_witness :
  exists tf tf',
    Tonal_Fragment_of c_major_scale = Some tf /\
    Tonal_Fragment_of (rotated c_major_scale 7) = Some tf' /\
    dict_get (key_dict tf') "C major" = dict_get (key_dict tf) "G major".
Proof.
  destruct (transposed_energies_shift_the_candidates Numpy.corrcoef
              Numpy.round c_major_scale 7 eq_refl ltac:(lia))
    as (tf & tf' & E & E' & S).
  exists tf, tf'. split; [exact E|]. split; [exact E'|].
  exact (S 0%nat major ltac:(lia)).
Defined.

(** X2 at the C major scale: the alternate "A minor" is not the primary. *)
Lemma alternate_is_another_candidate_witness :
  exists tf c,
    Tonal_Fragment_of c_major_scale = Some tf /\
    altkey tf = Some "A minor" /\ "A minor" <> key tf /\
    altbestcorr tf = Some c /\ dict_get (key_dict tf) "A minor" = Some c.
Proof.
  destruct (alternate_is_another_candidate Numpy.corrcoef Numpy.round
              c_major_scale eq_refl) as (tf & E & _ & A).
  assert (K : altkey tf = Some "A minor") by (evaluate_init E; reflexivity).
  destruct (A _ K) as (N & c & Hc & G & _).
  exists tf, c. repeat split; assumption.
Defined.

(** X3 at [MAJ_PROFILE]: the first coefficient is a number, so is the
    primary correlation. *)
Lemma later_nan_is_passed_over_witness :
  exists tf,
    Tonal_Fragment_of MAJ_PROFILE = Some tf /\
    is_nan (Numpy.round
              (Numpy.corrcoef MAJ_PROFILE (rotated MAJ_PROFILE 0)) 3)
      = false /\
    is_nan (bestcorr tf) = false /\
    forall k c, In (k, c) (key_dict tf) -> is_nan c = false ->
      (c <=? bestcorr tf)%float = true.
Proof.
  destruct (later_nan_is_passed_over Numpy.corrcoef Numpy.round MAJ_PROFILE
              eq_refl) as (tf & E & Himp).
  assert (N : is_nan (Numpy.round
                (Numpy.corrcoef MAJ_PROFILE (rotated MAJ_PROFILE 0)) 3)
              = false) by (vm_compute; reflexivity).
  exists tf. split; [exact E|]. split; [exact N|]. exact (Himp N).
Defined.

(** X4 at the C major scale: the returned pair is the item of "A minor". *)
Lemma returned_pair_is_a_dictionary_item_witness :
  exists tf c,
    Tonal_Fragment_of c_major_scale = Some tf /\
    get_key_with_context true threshold_default tf =
      Some (("A minor", c), tf) /\
    dict_get (key_dict tf) "A minor" = Some c.
Proof.
  destruct (returned_pair_is_a_dictionary_item Numpy.corrcoef Numpy.round
              c_major_scale true threshold_default eq_refl)
    as (tf & k & c & E & G & D & _).
  assert (K : k = "A minor").
  { evaluate_init E. vm_compute in G. injection G as <- _. reflexivity. }
  subst k. exists tf, c. repeat split; assumption.
Defined.

(** X5 at twelve equal energies: the primary correlation is a zero and the
    primary key is returned. *)
Lemma nonpositive_primary_is_kept_witness :
  exists tf,
    Tonal_Fragment_of all_tenth = Some tf /\
    (bestcorr tf <=? 0)%float = true /\
    get_key_with_context true threshold_default tf =
      Some ((key tf, bestcorr tf), tf).
Proof.
  destruct (nonpositive_primary_is_kept Numpy.corrcoef Numpy.round all_tenth
              eq_refl) as (tf & E & Himp).
  assert (N : (bestcorr tf <=? 0)%float = true)
    by (evaluate_init E; reflexivity).
  exists tf. split; [exact E|]. split; [exact N|]. exact (Himp N).
Defined.

(** X6 at the C major scale: the detected key is the relative minor, and
    the line "also possible" names that same key. *)
Lemma print_key_lines_witness :
  exists tf c,
    Tonal_Fragment_of c_major_scale = Some tf /\
    key tf = "C major" /\
    print_key tf =
      Some ([Detected_key "A minor" c; also_possible "A minor" (Some c)],
            tf) /\
    (bestcorr tf * 0.9 <? c)%float = true /\
    (c <=? bestcorr tf)%float = true.
Proof.
  destruct (print_key_lines Numpy.corrcoef Numpy.round c_major_scale eq_refl)
    as (tf & k & c & E & P & Himp).
  assert (K : key tf = "C major" /\ k = "A minor" /\
              altkey tf = Some "A minor" /\ altbestcorr tf = Some c).
  { evaluate_init E. vm_compute in P. injection P as <- <-.
    repeat split. }
  destruct K as (K1 & -> & K2 & K3).
  assert (D : "A minor" <> key tf) by (rewrite K1; discriminate).
  destruct (Himp D) as (B1 & B2 & _).
  exists tf, c. split; [exact E|]. split; [exact K1|].
  split; [rewrite P, K2, K3; reflexivity|]. split; assumption.
Defined.

(** X7 at [MAJ_PROFILE]. *)
Lemma corr_table_rows_witness :
  exists tf,
    Tonal_Fragment_of MAJ_PROFILE = Some tf /\
    Permutation (corr_table tf) (key_dict tf) /\
    nth_error (map fst (corr_table tf)) 2 = Some "A# major".
Proof.
  destruct (corr_table_rows Numpy.corrcoef Numpy.round MAJ_PROFILE eq_refl)
    as (tf & E & P & L).
  exists tf. split; [exact E|]. split; [exact P|]. rewrite L. reflexivity.
Defined.

(** X8 at the C major scale: the greatest energy is 1 and its row shows 1. *)
Lemma print_chroma_rows_witness :
  exists tf rows i p,
    Tonal_Fragment_of c_major_scale = Some tf /\
    print_chroma tf = Some rows /\ map fst rows = PITCHES /\
    nth_error c_major_scale i = Some 1%float /\
    nth_error rows i = Some (p, 1%float).
Proof.
  destruct (print_chroma_rows Numpy.corrcoef Numpy.round c_major_scale
              eq_refl) as (tf & rows & mx & E & M & P & F & _ & Himp).
  vm_compute in M. injection M as <-.
  destruct (Himp eq_refl eq_refl) as (i & p & Hi & Hr).
  exists tf, rows, i, p. repeat split; assumption.
Defined.

(** X9 at the all-zero vector: every row is NaN. *)
Lemma print_chroma_of_silence_witness :
  exists tf rows,
    Tonal_Fragment_of all_zero = Some tf /\
    print_chroma tf = Some rows /\
    forall i p c, (i < 12)%nat -> nth_error rows i = Some (p, c) ->
      is_nan c = true.
Proof.
  destruct (print_chroma_of_silence Numpy.corrcoef Numpy.round all_zero
              eq_refl) as (tf & rows & mx & E & M & P & Himp).
  vm_compute in M. injection M as <-.
  exists tf, rows. split; [exact E|]. split; [exact P|].
  intros i p c Hi Hr.
  assert (V : nth_error all_zero i = Some 0%float).
  { do 12 (destruct i as [|i]; [reflexivity|]). lia. }
  exact (Himp eq_refl i _ p c V eq_refl Hr).
Defined.

(** X11 with a chromagram of three rows and with one of twelve. *)
Lemma constructor_reads_twelve_rows_witness :
  Tonal_Fragment_new start_of_file (fun _ _ => [[1%float]; []; []])
    Numpy.fsum Numpy.corrcoef Numpy.round [] 22050 None None = None /\
  exists tf,
    Tonal_Fragment_new start_of_file no_frames
      Numpy.fsum Numpy.corrcoef Numpy.round [] 22050 None None = Some tf /\
    chroma_vals tf = all_zero.
Proof.
  split.
  - apply (constructor_reads_twelve_rows start_of_file
             (fun _ _ => [[1%float]; []; []]) Numpy.fsum Numpy.corrcoef
             Numpy.round [] 22050 None None).
    simpl. lia.
  - destruct (proj2 (constructor_reads_twelve_rows start_of_file no_frames
                       Numpy.fsum Numpy.corrcoef Numpy.round [] 22050
                       None None) ltac:(simpl; lia)) as (tf & E & C & _).
    exists tf. split; [exact E | exact C].
Defined.

(** X12 with a chromagram without frames. *)
Lemma silence_is_labelled_C_major_witness :
  exists tf,
    Tonal_Fragment_new start_of_file no_frames Numpy.fsum
      Numpy.corrcoef Numpy.round [] 22050 None None = Some tf /\
    key tf = "C major" /\ is_nan (bestcorr tf) = true /\ altkey tf = None.
Proof.
  assert (Z0 : forall row, In row (firstn 12 (no_frames [] 22050)) ->
                           Numpy.fsum row = 0%float).
  { intros row Hin. simpl in Hin.
    repeat (destruct Hin as [<-|Hin]; [reflexivity|]). contradiction. }
  destruct (silence_is_labelled_C_major start_of_file no_frames Numpy.fsum
              [] 22050 None None ltac:(simpl; lia) Z0)
    as (tf & E & _ & _ & K & N & A & _).
  exists tf. repeat split; assumption.
Defined.

(** X13 at "C# minor". *)
Lemma label_is_read_back_witness :
  candidate_name 1 minor = "C# minor" /\
  nth_error (split "C# minor") 0 = Some "C#" /\
  index "C#" PITCHES = Some 1%nat /\
  str_in "major" "C# minor" = false.
Proof.
  destruct (label_is_read_back 1 minor ltac:(lia)) as (p & P & S & I & M).
  injection P as <-. repeat split; assumption.
Defined.
